(** * PixabayDownloader: a shallow embedding of [src/main.py]

    The script queries the Pixabay search API for a keyword, collects the
    [largeImageURL] of every hit and downloads each one to
    [imagen_<i>.jpg] with one thread per URL.

    The program is almost entirely input/output, so the embedding makes the
    outside world explicit:
    - an [Environment] fixes how the network answers a GET and which
      filesystem calls fail; every theorem quantifies over it;
    - a [State] carries the instance attributes, the files and directories
      on disk and the lines printed so far;
    - methods are functions in a state-and-exception monad [M];
    - the threads of [descargar_imagenes_concurrentes] are a step function
      on configurations, driven by an arbitrary schedule. *)

From Stdlib Require Import ZArith Lia.
From Stdlib.Strings Require Import Ascii Byte.
From stdpp Require Import base option list strings pretty gmap sets.

Local Open Scope string_scope.
Local Open Scope list_scope.

(** ** Python values

    What [Response.json()] can produce.  A [PyDict] lists its items in
    insertion order; the keys of a dictionary are distinct, so looking a key
    up from the front finds its only item. *)
#[warnings="-register-all"] Inductive pyval : Type :=
| PyNone
| PyBool (b : bool)
| PyInt (n : Z)
| PyFloat (literal : string)
| PyStr (s : string)
| PyList (l : list pyval)
| PyDict (items : list (string * pyval)).

(** ** Exceptions *)

(** [requests.exceptions.RequestException] and the subclasses the library
    raises; each carries the text that [str(e)] shows. *)
Inductive request_exception : Type :=
| ConnectionError (msg : string)
| ReadTimeout (msg : string)
| TooManyRedirects (msg : string)
| InvalidURL (msg : string)
| ChunkedEncodingError (msg : string)
| HTTPError (msg : string)
| JSONDecodeError (msg : string).

(** The [OSError] subclasses of the built-in filesystem calls.
    (None of them is a [RequestException].) *)
Inductive os_error : Type :=
| FileNotFoundError
| FileExistsError
| PermissionError
| NotADirectoryError
| IsADirectoryError
| OtherOSError (errno : Z).

Inductive exn : Type :=
| RequestException (e : request_exception)
| KeyError (key : string)
| TypeError (msg : string)
| OSError (e : os_error) (path : string).

Definition str_request_exception (e : request_exception) : string :=
  match e with
  | ConnectionError m | ReadTimeout m | TooManyRedirects m | InvalidURL m
  | ChunkedEncodingError m | HTTPError m | JSONDecodeError m => m
  end.

(** The test of [except requests.exceptions.RequestException as e]. *)
Definition as_RequestException (e : exn) : option request_exception :=
  match e with
  | RequestException r => Some r
  | _ => None
  end.

(** ** The outside world *)

Record Request : Type := mkRequest {
  req_url : pyval;
  req_params : list (string * pyval);
  req_stream : bool
}.

(** A response as the program can observe it.  [content] is the part of the
    body that arrives; [body_error] is the failure that cuts the body short
    ([None] when it arrives whole); [json_value] is the body decoded as JSON
    ([None] when the body is not JSON). *)
Record Response : Type := mkResponse {
  status_code : Z;
  reason : string;
  url : string;
  content : list byte;
  body_error : option request_exception;
  json_value : option pyval
}.

Record Environment : Type := mkEnvironment {
  (** [requests.get]: an exception of the library, or a response *)
  net : Request -> request_exception + Response;
  (** [open(path, 'wb')] fails with this error *)
  open_fails : string -> option os_error;
  (** [write] of the chunk number [k] to [path] fails with this error *)
  write_fails : string -> nat -> option os_error;
  (** [mkdir(path)] of a missing directory fails with this error *)
  mkdir_fails : string -> option os_error
}.

(** The attributes of an instance. *)
Record PixabayDownloader : Type := mkPixabayDownloader {
  api_key : string;
  directorio_imagenes : string
}.

Record World : Type := mkWorld {
  files : gmap string (list byte);
  dirs : gset string;
  stdout : list string
}.

Record State : Type := mkState {
  self : PixabayDownloader;
  world : World
}.

(** ** The monad of methods: state, and an exception or a value *)

Inductive Result (A : Type) : Type :=
| Ok (a : A)
| Raise (e : exn).
Arguments Ok {A} a.
Arguments Raise {A} e.

Definition M (A : Type) : Type := State -> Result A * State.

Definition ret {A} (a : A) : M A := fun s => (Ok a, s).
Definition raise {A} (e : exn) : M A := fun s => (Raise e, s).
Definition bind {A B} (m : M A) (k : A -> M B) : M B :=
  fun s => match m s with
           | (Ok a, s') => k a s'
           | (Raise e, s') => (Raise e, s')
           end.

#[global] Instance M_ret : MRet M := @ret.
#[global] Instance M_bind : MBind M := fun A B k m => bind m k.

(** [try: body  except requests.exceptions.RequestException as e: handler] *)
Definition try_except_RequestException {A}
    (body : M A) (handler : request_exception -> M A) : M A :=
  fun s => match body s with
           | (Ok a, s') => (Ok a, s')
           | (Raise e, s') =>
               match as_RequestException e with
               | Some r => handler r s'
               | None => (Raise e, s')
               end
           end.

Definition get_self : M PixabayDownloader := fun s => (Ok (self s), s).

Definition set_world (f : World -> World) : M unit :=
  fun s => (Ok tt, mkState (self s) (f (world s))).

(** The state after one more line on the screen. *)
Definition printed (s : State) (line : string) : State :=
  mkState (self s)
    (mkWorld (files (world s)) (dirs (world s)) (stdout (world s) ++ [line])).

Definition print (line : string) : M unit :=
  fun s => (Ok tt, printed s line).

Fixpoint mapM {A B} (f : A -> M B) (l : list A) : M (list B) :=
  match l with
  | [] => ret []
  | a :: l' => b ← f a; bs ← mapM f l'; ret (b :: bs)
  end.

(** ** What the program prints *)

(** Line 79: [f"Error en la solicitud a la API: {e}"] *)
Definition search_diagnostic (e : request_exception) : string :=
  "Error en la solicitud a la API: " +:+ str_request_exception e.

(** Line 106: [f"Descarga completada: {nombre_archivo}"] *)
Definition fetch_ok_line (f : string) : string :=
  "Descarga completada: " +:+ f.

(** Line 108: [f"Error descargando {nombre_archivo}: {e}"] *)
Definition fetch_diagnostic (f : string) (e : request_exception) : string :=
  "Error descargando " +:+ f +:+ ": " +:+ str_request_exception e.

(** Line 124 *)
Definition no_results_line : string :=
  "No se encontraron imágenes para descargar.".

(** Line 139 *)
Definition all_done_line : string :=
  "Todas las imágenes han sido descargadas.".

(** ** Library calls *)

Section Methods.
Variable env : Environment.

(** [requests.get(url, params=..., stream=...)] *)
Definition requests_get (u : pyval) (params : list (string * pyval))
    (stream : bool) : M Response :=
  match net env (mkRequest u params stream) with
  | inl e => raise (RequestException e)
  | inr r => ret r
  end.

(** [Response.raise_for_status()]: the library builds an error message for
    the statuses 400 to 499 and 500 to 599, and raises [HTTPError] when there
    is one.  Every other status passes. *)
Definition http_error_msg (r : Response) : option string :=
  if decide (400 <= status_code r < 500)%Z then
    Some (pretty (status_code r) +:+ " Client Error: " +:+ reason r
          +:+ " for url: " +:+ url r)
  else if decide (500 <= status_code r < 600)%Z then
    Some (pretty (status_code r) +:+ " Server Error: " +:+ reason r
          +:+ " for url: " +:+ url r)
  else None.

Definition raise_for_status (r : Response) : M unit :=
  match http_error_msg r with
  | Some m => raise (RequestException (HTTPError m))
  | None => ret tt
  end.

(** [Response.json()]: a body that is not JSON raises the library's
    [JSONDecodeError], which is a [RequestException] (requests 2.27 and
    later). *)
Definition Response_json (r : Response) : M pyval :=
  match json_value r with
  | Some v => ret v
  | None => raise (RequestException (JSONDecodeError
              "Expecting value: line 1 column 1 (char 0)"))
  end.

Fixpoint dict_get (items : list (string * pyval)) (key : string)
    : option pyval :=
  match items with
  | [] => None
  | (k, v) :: rest => if String.eqb k key then Some v else dict_get rest key
  end.

(** [v[key]] for a string [key] *)
Definition getitem (v : pyval) (key : string) : M pyval :=
  match v with
  | PyDict items =>
      match dict_get items key with
      | Some x => ret x
      | None => raise (KeyError key)
      end
  | PyList _ => raise (TypeError "list indices must be integers or slices, not str")
  | PyStr _ => raise (TypeError "string indices must be integers, not 'str'")
  | PyNone => raise (TypeError "'NoneType' object is not subscriptable")
  | PyBool _ => raise (TypeError "'bool' object is not subscriptable")
  | PyInt _ => raise (TypeError "'int' object is not subscriptable")
  | PyFloat _ => raise (TypeError "'float' object is not subscriptable")
  end.

Fixpoint chars (s : string) : list pyval :=
  match s with
  | EmptyString => []
  | String c s' => PyStr (String c EmptyString) :: chars s'
  end.

(** The elements that [for x in v] goes through: the items of a list, the
    keys of a dictionary, the characters of a string. *)
Definition iterate (v : pyval) : M (list pyval) :=
  match v with
  | PyList l => ret l
  | PyDict items => ret (map (fun kv => PyStr (fst kv)) items)
  | PyStr s => ret (chars s)
  | PyNone => raise (TypeError "'NoneType' object is not iterable")
  | PyBool _ => raise (TypeError "'bool' object is not iterable")
  | PyInt _ => raise (TypeError "'int' object is not iterable")
  | PyFloat _ => raise (TypeError "'float' object is not iterable")
  end.

(** ** [obtener_urls_imagenes] (search) *)

Definition URL_BASE : string := "https://pixabay.com/api/".

Definition parametros (me : PixabayDownloader) (consulta : string)
    (cantidad : Z) : list (string * pyval) :=
  [("key", PyStr (api_key me));
   ("q", PyStr consulta);
   ("image_type", PyStr "photo");
   ("per_page", PyInt cantidad)].

Definition obtener_urls_imagenes (consulta : string) (cantidad : Z)
    : M (list pyval) :=
  me ← get_self;
  try_except_RequestException
    (respuesta ← requests_get (PyStr URL_BASE)
                   (parametros me consulta cantidad) false;
     raise_for_status respuesta;;
     datos ← Response_json respuesta;
     hits ← getitem datos "hits";
     imagenes ← iterate hits;
     urls ← mapM (fun imagen => getitem imagen "largeImageURL") imagenes;
     ret urls)
    (fun e => print (search_diagnostic e);; ret []).

(** ** [descargar_imagen] (fetch) *)

Definition startswith_sep (s : string) : bool :=
  match s with
  | String "/"%char _ => true
  | _ => false
  end.

Fixpoint endswith_sep (s : string) : bool :=
  match s with
  | EmptyString => false
  | String c EmptyString => Ascii.eqb c "/"%char
  | String _ s' => endswith_sep s'
  end.

(** [os.path.join(a, b)] of [posixpath] *)
Definition os_path_join (a b : string) : string :=
  if startswith_sep b then b
  else if String.eqb a "" then b
  else if endswith_sep a then a +:+ b
  else a +:+ "/" +:+ b.

Fixpoint iter_content_fuel (fuel chunk_size : nat) (data : list byte)
    : list (list byte) :=
  match fuel with
  | O => []
  | S fuel' =>
      match data with
      | [] => []
      | _ :: _ =>
          take chunk_size data
          :: iter_content_fuel fuel' chunk_size (drop chunk_size data)
      end
  end.

(** The chunks that [Response.iter_content(chunk_size)] yields for a body:
    pieces of [chunk_size] bytes, the last one possibly shorter.  Every
    piece takes at least one byte off for a positive [chunk_size], so
    [length data] rounds are enough. *)
Definition iter_content (chunk_size : nat) (data : list byte)
    : list (list byte) :=
  iter_content_fuel (length data) chunk_size data.

(** [open(ruta, 'wb')]: the file is created, or emptied when it exists. *)
Definition open_wb (ruta : string) : M unit :=
  match open_fails env ruta with
  | Some e => raise (OSError e ruta)
  | None =>
      set_world (fun w => mkWorld (<[ruta := []]> (files w)) (dirs w) (stdout w))
  end.

(** [archivo.write(fragmento)] for the chunk number [k] of the file *)
Definition file_write (ruta : string) (k : nat) (fragmento : list byte)
    : M unit :=
  match write_fails env ruta k with
  | Some e => raise (OSError e ruta)
  | None =>
      set_world (fun w =>
        mkWorld (<[ruta := default [] (files w !! ruta) ++ fragmento]> (files w))
                (dirs w) (stdout w))
  end.

(** What the generator does when its chunks are used up: it stops, or it
    raises the failure that cut the body short. *)
Definition end_of_body (respuesta : Response) : M unit :=
  match body_error respuesta with
  | Some e => raise (RequestException e)
  | None => ret tt
  end.

(** [for fragmento in respuesta.iter_content(...): archivo.write(fragmento)],
    from the chunk number [k] on *)
Fixpoint write_chunks (respuesta : Response) (ruta : string) (k : nat)
    (fragmentos : list (list byte)) : M unit :=
  match fragmentos with
  | [] => end_of_body respuesta
  | fragmento :: resto =>
      file_write ruta k fragmento;;
      write_chunks respuesta ruta (S k) resto
  end.

#[warnings="-abstract-large-number"] Definition chunk_size : nat := 8192.

Definition descargar_imagen (url : pyval) (nombre_archivo : string) : M unit :=
  try_except_RequestException
    (respuesta ← requests_get url [] true;
     raise_for_status respuesta;;
     me ← get_self;
     let ruta := os_path_join (directorio_imagenes me) nombre_archivo in
     open_wb ruta;;
     write_chunks respuesta ruta 0 (iter_content chunk_size (content respuesta));;
     print (fetch_ok_line nombre_archivo))
    (fun e => print (fetch_diagnostic nombre_archivo e)).

(** ** [__init__] *)

(** The directories on the way to [name]: what stands before each
    separator, and [name] itself, trailing separators apart.  Paths are
    compared as they are written. *)
Fixpoint path_chain_from (antes resto : string) : list string :=
  match resto with
  | EmptyString =>
      if String.eqb antes "" || endswith_sep antes then [] else [antes]
  | String c resto' =>
      (if Ascii.eqb c "/"%char
          && negb (String.eqb antes "" || endswith_sep antes)
       then [antes] else [])
      ++ path_chain_from (antes +:+ String c EmptyString) resto'
  end.

Definition path_chain (name : string) : list string :=
  path_chain_from "" name.

Definition get_world : M World := fun s => (Ok (world s), s).

(** One directory of the chain: kept when it is there, made otherwise if
    the system lets it.  When a file has its name, the path itself is
    refused with [FileExistsError], and a path below it, [siguiente], with
    [NotADirectoryError]. *)
Definition mkdir_missing (p : string) (siguiente : option string) : M unit :=
  w ← get_world;
  if decide (p ∈ dirs w) then ret tt
  else if decide (is_Some (files w !! p)) then
    match siguiente with
    | Some q => raise (OSError NotADirectoryError q)
    | None => raise (OSError FileExistsError p)
    end
  else match mkdir_fails env p with
       | Some e => raise (OSError e p)
       | None =>
           set_world (fun w => mkWorld (files w) ({[p]} ∪ dirs w) (stdout w))
       end.

Fixpoint mkdir_each (chain : list string) : M unit :=
  match chain with
  | [] => ret tt
  | p :: resto => mkdir_missing p (head resto);; mkdir_each resto
  end.

(** [os.makedirs(name, exist_ok=True)] *)
Definition makedirs_exist_ok (name : string) : M unit :=
  if String.eqb name "" then raise (OSError FileNotFoundError name)
  else mkdir_each (path_chain name).

(** The default of [directorio_imagenes] in line 28. *)
Definition directorio_por_defecto : string := "imagenes_descargadas".

(** [PixabayDownloader(api_key, directorio_imagenes)]: the two attributes
    are set, then the directory is made.  An exception leaves no instance. *)
Definition __init__ (api_key directorio_imagenes : string) (w : World)
    : Result PixabayDownloader * World :=
  let s := mkState (mkPixabayDownloader api_key directorio_imagenes) w in
  match makedirs_exist_ok directorio_imagenes s with
  | (Ok _, s') => (Ok (self s'), world s')
  | (Raise e, s') => (Raise e, world s')
  end.

End Methods.

(** ** The threads of [descargar_imagenes_concurrentes]

    A thread runs [descargar_imagen url nombre_archivo].  Between two of its
    points any other thread may run; the points are the calls that touch
    the network, the disk or the screen.  [start] always makes the thread,
    and the network always answers: a connection that hangs for ever is
    not part of the model. *)

Inductive thread_pc : Type :=
| AtGet
    (* lines 99-100: [requests.get], [raise_for_status] *)
| AtOpen (respuesta : Response)
    (* lines 102-103: [os.path.join], [open] *)
| AtWrite (respuesta : Response) (ruta : string) (k : nat)
          (fragmentos : list (list byte))
    (* lines 104-105: the next chunk, or the end of the body *)
| AtPrint
    (* line 106 *)
| AtExcept (e : request_exception)
    (* line 108 *)
| Finished (r : Result unit).

(** A [threading.Thread] with its [args] and the point it has reached. *)
Record Thread : Type := mkThread {
  t_url : pyval;
  t_nombre : string;
  t_pc : thread_pc
}.

Inductive main_pc : Type :=
| MainSearch (consulta : string) (cantidad : Z)
    (* lines 121-125 *)
| MainLaunch (i : nat) (pendientes : list pyval) (hilos : list nat)
    (* lines 129-133, at position [i] of [enumerate(urls)] *)
| MainJoin (pendientes : list nat)
    (* lines 136-139 *)
| MainReturned (r : Result unit).

(** [hilos] holds threads by their index in [pool]. *)
Record Config : Type := mkConfig {
  main : main_pc;
  pool : list Thread;
  shared : State
}.

Definition is_finished (t : Thread) : bool :=
  match t_pc t with
  | Finished _ => true
  | _ => false
  end.

(** [f"imagen_{i+1}.jpg"] *)
Definition nombre_archivo (i : nat) : string :=
  "imagen_" +:+ pretty (i + 1)%nat +:+ ".jpg".

Section Machine.
Variable env : Environment.

(** Where an exception raised inside the [try] of line 98 goes. *)
Definition on_raise (e : exn) : thread_pc :=
  match as_RequestException e with
  | Some r => AtExcept r
  | None => Finished (Raise e)
  end.

Definition next_pc (r : Result thread_pc * State) : thread_pc * State :=
  match r with
  | (Ok pc, s) => (pc, s)
  | (Raise e, s) => (on_raise e, s)
  end.

Definition thread_step (t : Thread) (s : State) : option (thread_pc * State) :=
  match t_pc t with
  | AtGet =>
      Some (next_pc
        ((respuesta ← requests_get env (t_url t) [] true;
          raise_for_status respuesta;;
          ret (AtOpen respuesta)) s))
  | AtOpen respuesta =>
      Some (next_pc
        ((me ← get_self;
          let ruta := os_path_join (directorio_imagenes me) (t_nombre t) in
          open_wb env ruta;;
          ret (AtWrite respuesta ruta 0
                 (iter_content chunk_size (content respuesta)))) s))
  | AtWrite respuesta ruta k [] =>
      Some (next_pc ((end_of_body respuesta;; ret AtPrint) s))
  | AtWrite respuesta ruta k (fragmento :: resto) =>
      Some (next_pc
        ((file_write env ruta k fragmento;;
          ret (AtWrite respuesta ruta (S k) resto)) s))
  | AtPrint =>
      Some (next_pc
        ((print (fetch_ok_line (t_nombre t));; ret (Finished (Ok tt))) s))
  | AtExcept e =>
      Some (next_pc
        ((print (fetch_diagnostic (t_nombre t) e);;
          ret (Finished (Ok tt))) s))
  | Finished _ => None
  end.

(** One step of the caller's thread.  [hilo.join()] can only be passed when
    the thread has finished, normally or by an exception. *)
Definition main_step (c : Config) : option Config :=
  match main c with
  | MainSearch consulta cantidad =>
      match obtener_urls_imagenes env consulta cantidad (shared c) with
      | (Raise e, s) => Some (mkConfig (MainReturned (Raise e)) (pool c) s)
      | (Ok [], s) =>
          let s' := snd (print no_results_line s) in
          Some (mkConfig (MainReturned (Ok tt)) (pool c) s')
      | (Ok urls, s) => Some (mkConfig (MainLaunch 0 urls []) (pool c) s)
      end
  | MainLaunch i (url :: resto) hilos =>
      let hilo := mkThread url (nombre_archivo i) AtGet in
      Some (mkConfig (MainLaunch (S i) resto (hilos ++ [length (pool c)]))
                     (pool c ++ [hilo]) (shared c))
  | MainLaunch i [] hilos =>
      Some (mkConfig (MainJoin hilos) (pool c) (shared c))
  | MainJoin (h :: resto) =>
      match pool c !! h with
      | Some t =>
          if is_finished t
          then Some (mkConfig (MainJoin resto) (pool c) (shared c))
          else None
      | None => None
      end
  | MainJoin [] =>
      let s' := snd (print all_done_line (shared c)) in
      Some (mkConfig (MainReturned (Ok tt)) (pool c) s')
  | MainReturned _ => None
  end.

(** A step of the caller ([None]) or of the thread number [j] ([Some j]). *)
Definition step (c : Config) (who : option nat) : option Config :=
  match who with
  | None => main_step c
  | Some j =>
      t ← pool c !! j;
      '(pc, s) ← thread_step t (shared c);
      Some (mkConfig (main c)
                     (<[j := mkThread (t_url t) (t_nombre t) pc]> (pool c)) s)
  end.

Definition step_rel (c c' : Config) : Prop := ∃ who, step c who = Some c'.

(** The configurations an execution can go through. *)
Definition reachable (c c' : Config) : Prop := rtc step_rel c c'.

(** Running a schedule; a move that is not possible is skipped. *)
Definition run_schedule (sched : list (option nat)) (c : Config) : Config :=
  foldl (fun c who => default c (step c who)) c sched.

(** [self.descargar_imagenes_concurrentes(consulta, cantidad)] is called. *)
Definition descargar_imagenes_concurrentes (consulta : string) (cantidad : Z)
    (s : State) : Config :=
  mkConfig (MainSearch consulta cantidad) [] s.

(** Lines 143-145: the instance is made with the default directory, and
    the download of fifty images of dogs is called. *)
Definition programa (w : World) : Result Config * World :=
  match __init__ env "PON_AQUÍ_TU_API_KEY" directorio_por_defecto w with
  | (Ok descargador, w') =>
      (Ok (descargar_imagenes_concurrentes "perros" 50
             (mkState descargador w')), w')
  | (Raise e, w') => (Raise e, w')
  end.

End Machine.

(** ** Vocabulary of the properties *)

(** The request that [obtener_urls_imagenes] sends. *)
Definition search_request (me : PixabayDownloader) (consulta : string)
    (cantidad : Z) : Request :=
  mkRequest (PyStr URL_BASE) (parametros me consulta cantidad) false.

(** An entry of the response that carries the image address [u]. *)
Definition has_url (entry u : pyval) : Prop :=
  ∃ d, entry = PyDict d ∧ dict_get d "largeImageURL" = Some u.


(** Lines 75-77 for a decoded body. *)
Definition extraer (datos : pyval) : M (list pyval) :=
  hits ← getitem datos "hits";
  imagenes ← iterate hits;
  urls ← mapM (fun imagen => getitem imagen "largeImageURL") imagenes;
  ret urls.

(** A sequence element that is an address: a string with something in it. *)
Definition well_formed_url (v : pyval) : Prop :=
  ∃ t, v = PyStr t ∧ t ≠ "".

(** The request that [descargar_imagen] sends. *)
Definition fetch_request (u : pyval) : Request := mkRequest u [] true.

(** The state with the file [ruta] holding [data]. *)
Definition with_file (s : State) (ruta : string) (data : list byte) : State :=
  mkState (self s)
    (mkWorld (<[ruta := data]> (files (world s))) (dirs (world s))
             (stdout (world s))).

(** Two states that differ at most in the files. *)
Definition same_but_files (s s1 : State) : Prop :=
  self s1 = self s ∧ dirs (world s1) = dirs (world s)
  ∧ stdout (world s1) = stdout (world s).

(** The arguments a thread was made with. *)
Definition args (t : Thread) : pyval * string := (t_url t, t_nombre t).

(** Lines 129-130: the address at position [i] goes with the name made
    from [i + 1]. *)
Definition tareas (urls : list pyval) : list (pyval * string) :=
  imap (fun i u => (u, nombre_archivo i)) urls.

(** A bound on the steps a thread still has to take. *)
Definition remaining (env : Environment) (t : Thread) : nat :=
  match t_pc t with
  | AtGet =>
      match net env (fetch_request (t_url t)) with
      | inl _ => 2
      | inr r => 4 + length (iter_content chunk_size (content r))
      end
  | AtOpen r => 3 + length (iter_content chunk_size (content r))
  | AtWrite _ _ _ fragmentos => 2 + length fragmentos
  | AtPrint => 1
  | AtExcept _ => 1
  | Finished _ => 0
  end.

(** What holds of every configuration of a call whose search gave [res],
    according to the point the caller has reached. *)
Definition Inv (c0 : Config) (res : Result (list pyval)) (c : Config) : Prop :=
  match main c with
  | MainSearch _ _ => c = c0
  | MainLaunch i pendientes hilos =>
      ∃ urls, res = Ok urls ∧ urls ≠ []
        ∧ map t_url (pool c) ++ pendientes = urls
        ∧ i = length (pool c)
        ∧ map args (pool c) = tareas (map t_url (pool c))
        ∧ hilos = seq 0 i
  | MainJoin pendientes =>
      ∃ urls k, res = Ok urls ∧ urls ≠ []
        ∧ map args (pool c) = tareas urls
        ∧ pendientes = seq k (length (pool c) - k)
        ∧ (k ≤ length (pool c))%nat
        ∧ ∀ j t, (j < k)%nat → pool c !! j = Some t → is_finished t = true
  | MainReturned r =>
      (pool c = []
       ∧ match res with
         | Ok urls => urls = [] ∧ r = Ok tt
         | Raise e => r = Raise e
         end)
      ∨ (∃ urls, res = Ok urls ∧ urls ≠ [] ∧ r = Ok tt
           ∧ map args (pool c) = tareas urls
           ∧ Forall (fun t => is_finished t = true) (pool c))
  end.

(** A world with no file, no directory and an empty screen. *)
Definition empty_world : World := mkWorld ∅ ∅ [].

(** The result of a fetch for an instance. *)
Definition fetch_result (env : Environment) (me : PixabayDownloader)
    (u : pyval) (f : string) : Result unit :=
  fst (descargar_imagen env u f (mkState me empty_world)).

(** The threads as [start] leaves them. *)
Definition fresh_threads (urls : list pyval) : list Thread :=
  imap (fun k u => mkThread u (nombre_archivo k) AtGet) urls.

(** A thread run on its own, for at most [fuel] steps. *)
Fixpoint thread_run (env : Environment) (fuel : nat) (t : Thread) (s : State)
    : Thread * State :=
  match fuel with
  | O => (t, s)
  | S fuel' =>
      match thread_step env t s with
      | Some (pc, s') =>
          thread_run env fuel' (mkThread (t_url t) (t_nombre t) pc) s'
      | None => (t, s)
      end
  end.

(** The thread [t], run on its own, finishes with the result [r]. *)
Definition runs_to (env : Environment) (me : PixabayDownloader) (t : Thread)
    (r : Result unit) : Prop :=
  ∃ k, t_pc (fst (thread_run env k t (mkState me empty_world))) = Finished r.

(** ** Vocabulary of the properties of the disk, the screen and the steps *)

(** The path of the file that the thread [t] writes. *)
Definition ruta_de (me : PixabayDownloader) (t : Thread) : string :=
  os_path_join (directorio_imagenes me) (t_nombre t).

(** The path of the file of position [j] (from 0). *)
Definition ruta_posicion (me : PixabayDownloader) (j : nat) : string :=
  os_path_join (directorio_imagenes me) (nombre_archivo j).

(** A thread that is writing writes to the path made from its own name. *)
Definition wf_pc (me : PixabayDownloader) (t : Thread) : Prop :=
  match t_pc t with
  | AtWrite _ ruta _ _ => ruta = ruta_de me t
  | _ => True
  end.

(** The file of the thread [t] at the end of [t] run on its own from [s]. *)
Definition alone_file (env : Environment) (me : PixabayDownloader)
    (t : Thread) (s : State) : option (list byte) :=
  files (world (snd (thread_run env (remaining env t) t s))) !! ruta_de me t.

(** What holds of the disk in every configuration of a call made in the
    state [s]: directories are as they were, so is every file that is not
    the file of a position, and every thread has its name, writes to its
    own path and is on the way to leaving its file as [descargar_imagen]
    on its own leaves it. *)
Definition FilesInv (env : Environment) (s : State) (c : Config) : Prop :=
  dirs (world (shared c)) = dirs (world s) ∧
  (∀ p, (∀ j, (j < length (pool c))%nat → p ≠ ruta_posicion (self s) j) →
        files (world (shared c)) !! p = files (world s) !! p) ∧
  (∀ j t, pool c !! j = Some t →
          t_nombre t = nombre_archivo j
          ∧ wf_pc (self s) t
          ∧ alone_file env (self s) t (shared c)
            = files (world (snd (descargar_imagen env (t_url t) (t_nombre t) s)))
              !! ruta_de (self s) t).

(** The steps that the loop of line 129 and the threads it makes will
    take for the addresses [pend]: for each, the start, the steps of the
    thread and the [join]. *)
Definition launch_cost (env : Environment) (pend : list pyval) : nat :=
  sum_list_with (fun u => remaining env (mkThread u "" AtGet) + 2)%nat pend.

(** A bound on the steps that the caller and the threads to come will
    take. *)
Definition main_cost (env : Environment) (c : Config) : nat :=
  match main c with
  | MainSearch q n =>
      match fst (obtener_urls_imagenes env q n (shared c)) with
      | Ok (u :: urls) => 3 + launch_cost env (u :: urls)
      | _ => 1
      end
  | MainLaunch _ pend hilos => launch_cost env pend + length hilos + 2
  | MainJoin pend => length pend + 1
  | MainReturned _ => 0
  end.

(** A bound on the steps that a configuration can still take. *)
Definition cost (env : Environment) (c : Config) : nat :=
  main_cost env c + sum_list_with (remaining env) (pool c).



(** The number of chunks that the loop of lines 104-105 writes before a
    write fails, from the chunk number [k] on. *)
Fixpoint written (env : Environment) (ruta : string) (k : nat)
    (chunks : list (list byte)) : nat :=
  match chunks with
  | [] => O
  | _ :: resto =>
      match write_fails env ruta k with
      | Some _ => O
      | None => S (written env ruta (S k) resto)
      end
  end.

(** What a fetch leaves in its file: nothing new when the request fails or
    the file cannot be opened, and otherwise the chunks written before the
    first write that fails. *)
Definition fetch_writes (env : Environment) (me : PixabayDownloader)
    (u : pyval) (f : string) : option (list byte) :=
  match net env (fetch_request u) with
  | inl _ => None
  | inr r =>
      match http_error_msg r with
      | Some _ => None
      | None =>
          let ruta := os_path_join (directorio_imagenes me) f in
          match open_fails env ruta with
          | Some _ => None
          | None =>
              let chunks := iter_content chunk_size (content r) in
              Some (concat (take (written env ruta 0 chunks) chunks))
          end
      end
  end.

(** ** Inputs for the examples *)

Module Ejemplos.

(** A hit of the search with its address. *)
Definition hit (u : string) : pyval :=
  PyDict [("id", PyInt 7); ("largeImageURL", PyStr u)].

Definition respuesta_api (status : Z) (body : option pyval) : Response :=
  mkResponse status "-" URL_BASE [] None body.

Definition respuesta_imagen (status : Z) (data : list byte)
    (e : option request_exception) : Response :=
  mkResponse status "-" "http://x" data e None.

(** A network that answers the search with [api] and every download with
    [img]; a filesystem on which nothing fails. *)
Definition entorno (api img : request_exception + Response) : Environment :=
  mkEnvironment
    (fun r => if req_stream r then img else api)
    (fun _ => None) (fun _ _ => None) (fun _ => None).

Definition mundo0 : World := empty_world.
Definition yo : PixabayDownloader := mkPixabayDownloader "K" "imagenes_descargadas".
Definition s0 : State := mkState yo mundo0.

(** The filesystem of [entorno] with a directory that cannot be written. *)
Definition entorno_sin_permiso (img : request_exception + Response)
    : Environment :=
  mkEnvironment (fun _ => img) (fun _ => Some PermissionError)
                (fun _ _ => None) (fun _ => None).

(** A network on which the download of ["http://x/a.jpg"] cannot connect
    and every other download gives the two bytes [ab]; the search gives
    the two addresses [a.jpg] and [b.jpg]. *)
Definition entorno_mixto : Environment :=
  mkEnvironment
    (fun r =>
       if req_stream r then
         match req_url r with
         | PyStr u =>
             if String.eqb u "http://x/a.jpg"
             then inl (ConnectionError "Connection refused")
             else inr (respuesta_imagen 200 ["a"; "b"]%byte None)
         | _ => inl (InvalidURL "No scheme supplied")
         end
       else
         inr (respuesta_api 200
                (Some (PyDict [("hits", PyList [hit "http://x/a.jpg";
                                                hit "http://x/b.jpg"])]))))
    (fun _ => None) (fun _ _ => None) (fun _ => None).

(** The caller first, then the second thread to its end, then the first,
    then the caller again. *)
Definition horario : list (option nat) :=
  replicate 4 None ++ replicate 5 (Some 1%nat) ++ replicate 2 (Some 0%nat)
  ++ replicate 3 None.

Definition entorno_dos : Environment :=
  mkEnvironment
    (fun r =>
       if req_stream r then
         match req_url r with
         | PyStr u =>
             if String.eqb u "http://x/a.jpg"
             then inr (respuesta_imagen 200 ["a"; "1"]%byte None)
             else inr (respuesta_imagen 200 ["b"; "2"]%byte None)
         | _ => inl (InvalidURL "No scheme supplied")
         end
       else
         inr (respuesta_api 200
                (Some (PyDict [("hits", PyList [hit "http://x/a.jpg";
                                                hit "http://x/b.jpg"])]))))
    (fun _ => None) (fun _ _ => None) (fun _ => None).

Definition horario_alterno : list (option nat) :=
  replicate 4 None
  ++ [Some 0; Some 1; Some 1; Some 0; Some 0; Some 1; Some 0; Some 1;
      Some 1; Some 0]%nat
  ++ replicate 3 None.

(** The caller first, then the first thread to its end, then the second,
    then the caller again. *)
Definition horario_en_orden : list (option nat) :=
  replicate 4 None ++ replicate 5 (Some 0%nat) ++ replicate 5 (Some 1%nat)
  ++ replicate 3 None.

(** A filesystem on which the directory ["salida/fotos"] cannot be made,
    and every other one can. *)
Definition entorno_sin_subdirectorio : Environment :=
  mkEnvironment
    (fun _ => inl (ConnectionError "Connection refused"))
    (fun _ => None) (fun _ _ => None)
    (fun p => if String.eqb p "salida/fotos" then Some PermissionError
              else None).

End Ejemplos.

Import Ejemplos.

(** * Properties *)

Ltac unfold_monad :=
  unfold mbind, M_bind, bind, mret, M_ret, ret, raise, get_self, get_world,
         set_world, print in *.

Section SearchFacts.
Variable env : Environment.

Lemma http_error_msg_None r :
  http_error_msg r = None ↔ ¬ (400 <= status_code r < 600)%Z.
Proof.
  unfold http_error_msg. repeat case_decide; split; intros; try done; lia.
Qed.

Lemma http_error_msg_Some r :
  (400 <= status_code r < 600)%Z → is_Some (http_error_msg r).
Proof.
  intros H. destruct (http_error_msg r) eqn:E; [eauto|].
  apply http_error_msg_None in E. lia.
Qed.

(** Subscripting never touches the state. *)
Lemma getitem_state v key s : snd (getitem v key s) = s.
Proof.
  destruct v as [| | | | | |items]; simpl; unfold_monad; try done.
  by destruct (dict_get items key).
Qed.

Lemma iterate_state v s : snd (iterate v s) = s.
Proof. by destruct v; simpl; unfold_monad. Qed.

Lemma mapM_getitem_state key l s :
  snd (mapM (fun imagen => getitem imagen key) l s) = s.
Proof.
  induction l as [|a l IH]; [done|]. simpl. unfold_monad.
  pose proof (getitem_state a key s) as Ha.
  destruct (getitem a key s) as [[b|e] s1]; simpl in *; subst; [|done].
  destruct (mapM _ l s) as [[bs|e] s2]; simpl in *; by subst.
Qed.


Lemma mapM_getitem_Forall2 l urls s :
  Forall2 has_url l urls →
  mapM (fun imagen => getitem imagen "largeImageURL") l s = (Ok urls, s).
Proof.
  induction 1 as [|a u l urls (d & -> & Hd) _ IH]; [done|].
  simpl. unfold_monad. simpl. rewrite Hd. by rewrite IH.
Qed.

Lemma mapM_getitem_Ok_Forall2 l urls s s' :
  mapM (fun imagen => getitem imagen "largeImageURL") l s = (Ok urls, s') →
  Forall2 has_url l urls.
Proof.
  revert urls s'. induction l as [|a l IH]; intros urls s'; simpl; unfold_monad.
  - intros [= <- _]. constructor.
  - destruct (getitem a _ s) as [[b|e] s1] eqn:Ea; [|done].
    pose proof (getitem_state a "largeImageURL" s) as Hs. rewrite Ea in Hs. simpl in Hs. subst s1.
    destruct (mapM _ l s) as [[bs|e] s2] eqn:El; [|done].
    intros [= <- _]. constructor; [|by eapply IH].
    destruct a as [| | | | | |items]; simpl in Ea; unfold_monad; try done.
    exists items. split; [done|]. destruct (dict_get items _); by simplify_eq.
Qed.

Lemma extraer_state datos s : snd (extraer datos s) = s.
Proof.
  unfold extraer. unfold_monad.
  pose proof (getitem_state datos "hits" s) as H1.
  destruct (getitem datos "hits" s) as [[hits|e] s1]; simpl in *; subst; [|done].
  pose proof (iterate_state hits s) as H2.
  destruct (iterate hits s) as [[imagenes|e] s2]; simpl in *; subst; [|done].
  pose proof (mapM_getitem_state "largeImageURL" imagenes s) as H3.
  destruct (mapM _ imagenes s) as [[urls|e] s3]; simpl in *; by subst.
Qed.

Lemma getitem_raise v key s e s' :
  getitem v key s = (Raise e, s') → e = KeyError key ∨ ∃ m, e = TypeError m.
Proof.
  destruct v as [| | | | | |items]; simpl; unfold_monad;
    try (intros [= <- _]; eauto).
  destruct (dict_get items key); intros [= <- _]; eauto.
Qed.

Lemma iterate_raise v s e s' :
  iterate v s = (Raise e, s') → ∃ m, e = TypeError m.
Proof.
  destruct v; simpl; unfold_monad; try done; intros [= <- _]; eauto.
Qed.

Lemma mapM_getitem_raise key l s e s' :
  mapM (fun imagen => getitem imagen key) l s = (Raise e, s') →
  e = KeyError key ∨ ∃ m, e = TypeError m.
Proof.
  revert s'. induction l as [|a l IH]; intros s'; simpl; unfold_monad; [done|].
  destruct (getitem a key s) as [[b|e1] s1] eqn:Ea.
  - pose proof (getitem_state a key s) as Hs. rewrite Ea in Hs. simpl in Hs. subst s1.
    destruct (mapM _ l s) as [[bs|e2] s2] eqn:El; [done|].
    intros [= <- _]. eauto.
  - intros [= <- _]. eauto using getitem_raise.
Qed.


(** The four ways through [obtener_urls_imagenes]. *)
Lemma obtener_net_error q n s e :
  net env (search_request (self s) q n) = inl e →
  obtener_urls_imagenes env q n s = (Ok [], printed s (search_diagnostic e)).
Proof.
  intros H. unfold obtener_urls_imagenes, try_except_RequestException, requests_get.
  unfold_monad. unfold search_request in H. by rewrite H.
Qed.

Lemma obtener_http_error q n s r m :
  net env (search_request (self s) q n) = inr r →
  http_error_msg r = Some m →
  obtener_urls_imagenes env q n s
  = (Ok [], printed s (search_diagnostic (HTTPError m))).
Proof.
  intros H Hm.
  unfold obtener_urls_imagenes, try_except_RequestException, requests_get,
    raise_for_status.
  unfold_monad. unfold search_request in H. by rewrite H, Hm.
Qed.

Lemma obtener_not_json q n s r :
  net env (search_request (self s) q n) = inr r →
  http_error_msg r = None →
  json_value r = None →
  ∃ m, obtener_urls_imagenes env q n s
       = (Ok [], printed s (search_diagnostic (JSONDecodeError m))).
Proof.
  intros H Hm Hj.
  unfold obtener_urls_imagenes, try_except_RequestException, requests_get,
    raise_for_status, Response_json.
  unfold_monad. unfold search_request in H. rewrite H, Hm, Hj. eauto.
Qed.

Lemma obtener_json q n s r datos :
  net env (search_request (self s) q n) = inr r →
  http_error_msg r = None →
  json_value r = Some datos →
  obtener_urls_imagenes env q n s = (fst (extraer datos s), s).
Proof.
  intros H Hm Hj.
  pose proof (extraer_state datos s) as Hst.
  destruct (extraer datos s) as [res s1] eqn:E. simpl in Hst. subst s1.
  unfold obtener_urls_imagenes, try_except_RequestException, requests_get,
    raise_for_status, Response_json.
  unfold extraer in E. unfold_monad. unfold search_request in H.
  rewrite H, Hm, Hj. simpl. 
  destruct (getitem datos "hits" s) as [[hits|e1] s1] eqn:E1.
  - destruct (iterate hits s1) as [[imagenes|e2] s2] eqn:E2.
    + destruct (mapM _ imagenes s2) as [[urls|e3] s3] eqn:E3.
      * by simplify_eq.
      * apply mapM_getitem_raise in E3.
        destruct E3 as [->|[? ->]]; by simplify_eq.
    + apply iterate_raise in E2 as [? ->]. by simplify_eq.
  - apply getitem_raise in E1. destruct E1 as [->|[? ->]]; by simplify_eq.
Qed.

End SearchFacts.

Section RunWithoutResults.
Variable env : Environment.

Lemma step_thread_empty_pool c j : pool c = [] → step env c (Some j) = None.
Proof. intros H. simpl. by rewrite H. Qed.

Lemma step_returned_empty c r who :
  main c = MainReturned r → pool c = [] → step env c who = None.
Proof.
  intros Hm Hp. destruct who as [j|]; [by apply step_thread_empty_pool|].
  simpl. unfold main_step. by rewrite Hm.
Qed.

(** An execution with one possible move, to a configuration with none. *)
Lemma reachable_one_move c0 c1 :
  (∀ who c, step env c0 who = Some c → c = c1) →
  (∀ who, step env c1 who = None) →
  ∀ c, reachable env c0 c → c = c0 ∨ c = c1.
Proof.
  intros H0 H1. apply (rtc_ind_r (λ c, c = c0 ∨ c = c1) c0); [by left|].
  intros c c' _ [who Hstep] [->| ->].
  - right. eauto.
  - by rewrite H1 in Hstep.
Qed.

(** When the search gives no address, [run] prints line 124 and returns;
    no thread is ever made. *)
Lemma run_no_results q n s s' :
  obtener_urls_imagenes env q n s = (Ok [], s') →
  let c0 := descargar_imagenes_concurrentes q n s in
  let c1 := mkConfig (MainReturned (Ok tt)) [] (printed s' no_results_line) in
  step env c0 None = Some c1 ∧
  ∀ c, reachable env c0 c → c = c0 ∨ c = c1.
Proof.
  intros Hs c0 c1.
  assert (Hstep : step env c0 None = Some c1).
  { simpl. unfold main_step. simpl. by rewrite Hs. }
  split; [done|].
  apply reachable_one_move.
  - intros [j|] c Hc; [by rewrite step_thread_empty_pool in Hc|].
    rewrite Hstep in Hc. by simplify_eq.
  - intros who. by eapply step_returned_empty.
Qed.

(** When the search raises, [run] ends with that exception; no thread is
    ever made and nothing more is printed. *)
Lemma run_search_raises q n s e s' :
  obtener_urls_imagenes env q n s = (Raise e, s') →
  let c0 := descargar_imagenes_concurrentes q n s in
  let c1 := mkConfig (MainReturned (Raise e)) [] s' in
  step env c0 None = Some c1 ∧
  ∀ c, reachable env c0 c → c = c0 ∨ c = c1.
Proof.
  intros Hs c0 c1.
  assert (Hstep : step env c0 None = Some c1).
  { simpl. unfold main_step. simpl. by rewrite Hs. }
  split; [done|].
  apply reachable_one_move.
  - intros [j|] c Hc; [by rewrite step_thread_empty_pool in Hc|].
    rewrite Hstep in Hc. by simplify_eq.
  - intros who. by eapply step_returned_empty.
Qed.

End RunWithoutResults.

(** C1 (amended).  If the search request fails, by an exception of the
    library on the network or by a response with a status from 400 to 599,
    [obtener_urls_imagenes] prints its diagnostic and returns the empty
    list; [descargar_imagenes_concurrentes] then prints the line of the
    "no results" path and returns, and no configuration of the execution
    holds a thread: no fetch is started. *)
Theorem search_failure_no_download env q n s :
  (∃ e, net env (search_request (self s) q n) = inl e) ∨
  (∃ r, net env (search_request (self s) q n) = inr r
        ∧ (400 <= status_code r < 600)%Z) →
  ∃ e,
    obtener_urls_imagenes env q n s
    = (Ok [], printed s (search_diagnostic e)) ∧
    let c0 := descargar_imagenes_concurrentes q n s in
    let c1 := mkConfig (MainReturned (Ok tt)) []
                (printed (printed s (search_diagnostic e)) no_results_line) in
    step env c0 None = Some c1 ∧
    ∀ c, reachable env c0 c → (c = c0 ∨ c = c1) ∧ pool c = [].
Proof.
  intros H.
  assert (∃ e, obtener_urls_imagenes env q n s
               = (Ok [], printed s (search_diagnostic e))) as [e He].
  { destruct H as [[e He]|(r & Hr & Hst)].
    - exists e. by apply obtener_net_error.
    - destruct (http_error_msg_Some r Hst) as [m Hm].
      exists (HTTPError m). by eapply obtener_http_error. }
  exists e. split; [done|].
  destruct (run_no_results env q n s _ He) as [Hstep Hreach].
  split; [done|]. intros c Hc.
  destruct (Hreach c Hc) as [->| ->]; split; auto.
Qed.

Lemma search_failure_no_download_witness :
  let env := entorno (inr (respuesta_api 503 None)) (inl (ConnectionError "")) in
  (400 <= status_code (respuesta_api 503 None) < 600)%Z ∧
  ∃ e,
    obtener_urls_imagenes env "perros" 2 s0
    = (Ok [], printed s0 (search_diagnostic e)) ∧
    let c0 := descargar_imagenes_concurrentes "perros" 2 s0 in
    let c1 := mkConfig (MainReturned (Ok tt)) []
                (printed (printed s0 (search_diagnostic e)) no_results_line) in
    step env c0 None = Some c1 ∧
    ∀ c, reachable env c0 c → (c = c0 ∨ c = c1) ∧ pool c = [].
Proof.
  intros env. split; [simpl; lia|].
  apply (search_failure_no_download env "perros" 2 s0).
  right. exists (respuesta_api 503 None). split; [reflexivity|simpl; lia].
Defined.

(** C1 as stated fails for a status that is neither 2xx nor an error for
    [raise_for_status]: a 300 response with a body of one hit makes the
    search return that address, and [run] starts a fetch for it. *)
Lemma non_2xx_search_counterexample :
  let r := respuesta_api 300 (Some (PyDict [("hits", PyList [hit "http://x/a.jpg"])])) in
  let env := entorno (inr r) (inl (ConnectionError "")) in
  net env (search_request (self s0) "perros" 1) = inr r ∧
  ¬ (200 <= status_code r < 300)%Z ∧
  fst (obtener_urls_imagenes env "perros" 1 s0) = Ok [PyStr "http://x/a.jpg"] ∧
  pool (run_schedule env [None; None] (descargar_imagenes_concurrentes "perros" 1 s0))
  = [mkThread (PyStr "http://x/a.jpg") "imagen_1.jpg" AtGet].
Proof.
  simpl. split; [done|]. split; [lia|]. split; [done|]. vm_compute. done.
Qed.

(** C3 (amended).  A response that passes [raise_for_status] and whose body
    is a JSON object without ["hits"], or whose ["hits"] list has an entry
    without ["largeImageURL"] after entries that have it, is not handled as
    a failed request: [KeyError] for the missing field leaves
    [obtener_urls_imagenes] with the state as it was (nothing printed), and
    [descargar_imagenes_concurrentes] ends with that exception without
    making a thread. *)
Theorem missing_fields_raise_KeyError env q n s r :
  net env (search_request (self s) q n) = inr r →
  ¬ (400 <= status_code r < 600)%Z →
  (∀ items,
     json_value r = Some (PyDict items) →
     dict_get items "hits" = None →
     obtener_urls_imagenes env q n s = (Raise (KeyError "hits"), s) ∧
     step env (descargar_imagenes_concurrentes q n s) None
     = Some (mkConfig (MainReturned (Raise (KeyError "hits"))) [] s)) ∧
  (∀ items antes d despues,
     json_value r = Some (PyDict items) →
     dict_get items "hits" = Some (PyList (antes ++ PyDict d :: despues)) →
     Forall (fun entry => ∃ u, has_url entry u) antes →
     dict_get d "largeImageURL" = None →
     obtener_urls_imagenes env q n s = (Raise (KeyError "largeImageURL"), s) ∧
     step env (descargar_imagenes_concurrentes q n s) None
     = Some (mkConfig (MainReturned (Raise (KeyError "largeImageURL"))) [] s)).
Proof.
  intros Hnet Hst. apply http_error_msg_None in Hst.
  assert (Hrun : ∀ e, obtener_urls_imagenes env q n s = (Raise e, s) →
    obtener_urls_imagenes env q n s = (Raise e, s) ∧
    step env (descargar_imagenes_concurrentes q n s) None
    = Some (mkConfig (MainReturned (Raise e)) [] s)).
  { intros e He. split; [done|]. by apply run_search_raises. }
  split.
  - intros items Hj Hh. apply Hrun.
    rewrite (obtener_json env q n s r _ Hnet Hst Hj). f_equal.
    unfold extraer. unfold_monad. simpl. unfold_monad. by rewrite Hh.
  - intros items antes d despues Hj Hh Hantes Hd. apply Hrun.
    rewrite (obtener_json env q n s r _ Hnet Hst Hj). f_equal.
    unfold extraer. unfold_monad. simpl. unfold_monad. rewrite Hh. simpl.
    clear Hh. induction Hantes as [|a antes (u & d' & -> & Hu) _ IH]; simpl.
    + unfold_monad. simpl. unfold_monad. by rewrite Hd.
    + unfold_monad. simpl. unfold_monad. rewrite Hu.
      destruct (mapM _ (antes ++ PyDict d :: despues) s) as [[bs|e] s2];
        simpl in *; by simplify_eq.
Qed.

Lemma missing_fields_raise_KeyError_witness :
  let r := respuesta_api 200 (Some (PyDict [("total", PyInt 0)])) in
  let env := entorno (inr r) (inl (ConnectionError "")) in
  ¬ (400 <= status_code r < 600)%Z ∧
  obtener_urls_imagenes env "perros" 2 s0 = (Raise (KeyError "hits"), s0).
Proof.
  intros r env.
  assert (Hst : ¬ (400 <= status_code r < 600)%Z) by (simpl; lia).
  split; [exact Hst|].
  destruct (missing_fields_raise_KeyError env "perros" 2 s0 r eq_refl Hst)
    as (H & _).
  apply (H [("total", PyInt 0)]); reflexivity.
Defined.

(** C3 as stated fails: a 200 response whose body has no ["hits"] makes
    [KeyError] escape the search, where a failed request gives the empty
    list. *)
Lemma missing_hits_counterexample :
  let r := respuesta_api 200 (Some (PyDict [("total", PyInt 0)])) in
  let env := entorno (inr r) (inl (ConnectionError "")) in
  obtener_urls_imagenes env "perros" 2 s0 = (Raise (KeyError "hits"), s0) ∧
  fst (obtener_urls_imagenes (entorno (inl (ConnectionError "")) (inl (ConnectionError "")))
         "perros" 2 s0) = Ok [].
Proof. split; reflexivity. Qed.




Lemma Forall2_has_url_well_formed entries urls :
  Forall2 has_url entries urls →
  (∀ entry u, entry ∈ entries → has_url entry u → well_formed_url u) →
  Forall well_formed_url urls.
Proof.
  induction 1 as [|entry u entries urls Hentry _ IH]; intros Hwf; constructor.
  - eapply Hwf; [left|done].
  - apply IH. intros entry' u' Hin. apply Hwf. by right.
Qed.

(** C6 (amended).  For a response that passes [raise_for_status] and whose
    body is a JSON object with a list under ["hits"], the search returns a
    list exactly when every entry carries ["largeImageURL"], and the list
    is then the value of that field of every entry, one per entry, in the
    order of the provider.  The values are returned as they came: they are
    non-empty strings when those of the provider are. *)
Theorem search_returns_entry_urls env q n s r items entries :
  net env (search_request (self s) q n) = inr r →
  ¬ (400 <= status_code r < 600)%Z →
  json_value r = Some (PyDict items) →
  dict_get items "hits" = Some (PyList entries) →
  (∀ urls, obtener_urls_imagenes env q n s = (Ok urls, s)
           ↔ Forall2 has_url entries urls) ∧
  (∀ urls, obtener_urls_imagenes env q n s = (Ok urls, s) →
           length urls = length entries ∧
           ((∀ entry u, entry ∈ entries → has_url entry u → well_formed_url u) →
            Forall well_formed_url urls)).
Proof.
  intros Hnet Hst Hj Hh. apply http_error_msg_None in Hst.
  assert (Heq : ∀ urls, obtener_urls_imagenes env q n s = (Ok urls, s)
                        ↔ Forall2 has_url entries urls).
  { intros urls. rewrite (obtener_json env q n s r _ Hnet Hst Hj).
    unfold extraer. unfold_monad. simpl. unfold_monad. rewrite Hh. simpl.
    split.
    - intros H.
      destruct (mapM _ entries s) as [[us|e] s2] eqn:El; simpl in H; [|done].
      simplify_eq. by eapply mapM_getitem_Ok_Forall2.
    - intros H. by rewrite (mapM_getitem_Forall2 _ _ s H). }
  split; [done|]. intros urls Hu. apply Heq in Hu. split.
  - symmetry. by eapply Forall2_length.
  - by apply Forall2_has_url_well_formed.
Qed.

Lemma search_returns_entry_urls_witness :
  let entries := [hit "http://x/a.jpg"; hit "http://x/b.jpg"] in
  let r := respuesta_api 200 (Some (PyDict [("hits", PyList entries)])) in
  let env := entorno (inr r) (inl (ConnectionError "")) in
  ¬ (400 <= status_code r < 600)%Z ∧
  (obtener_urls_imagenes env "perros" 2 s0
   = (Ok [PyStr "http://x/a.jpg"; PyStr "http://x/b.jpg"], s0)
   ↔ Forall2 has_url entries [PyStr "http://x/a.jpg"; PyStr "http://x/b.jpg"]).
Proof.
  intros entries r env.
  assert (Hst : ¬ (400 <= status_code r < 600)%Z) by (simpl; lia).
  split; [exact Hst|].
  apply (search_returns_entry_urls env "perros" 2 s0 r
           [("hits", PyList entries)] entries eq_refl Hst eq_refl eq_refl).
Defined.

(** C6 as stated fails: a 200 response with a body that parses, in which
    the address of the only hit is the empty string, gives a result whose
    element is not a non-empty string. *)
Lemma empty_url_counterexample :
  let r := respuesta_api 200 (Some (PyDict [("hits", PyList [hit ""])])) in
  let env := entorno (inr r) (inl (ConnectionError "")) in
  (200 <= status_code r < 300)%Z ∧
  obtener_urls_imagenes env "perros" 1 s0 = (Ok [PyStr ""], s0) ∧
  ¬ Forall well_formed_url [PyStr ""].
Proof.
  split; [simpl; lia|]. split; [reflexivity|].
  intros H. apply Forall_cons in H as [(t & [= <-] & Ht) _]. done.
Qed.

Section FetchFacts.
Variable env : Environment.

Lemma iter_content_fuel_concat n fuel data :
  (0 < n)%nat → (length data ≤ fuel)%nat →
  concat (iter_content_fuel fuel n data) = data.
Proof.
  intros Hn. revert data.
  induction fuel as [|fuel IH]; intros data Hlen.
  - destruct data; [done|simpl in Hlen; lia].
  - destruct data as [|b data]; [done|].
    cbn [iter_content_fuel concat]. rewrite IH.
    + apply take_drop.
    + rewrite length_drop. simpl in *. lia.
Qed.

Lemma iter_content_concat n data :
  (0 < n)%nat → concat (iter_content n data) = data.
Proof. intros. by apply iter_content_fuel_concat. Qed.

Lemma iter_content_fuel_sizes n fuel data :
  (0 < n)%nat →
  Forall (fun c => (0 < length c ≤ n)%nat) (iter_content_fuel fuel n data).
Proof.
  intros Hn. revert data.
  induction fuel as [|fuel IH]; intros data; [constructor|].
  destruct data as [|b data]; [constructor|].
  cbn [iter_content_fuel]. constructor; [|apply IH].
  rewrite length_take. simpl. lia.
Qed.

Lemma chunk_size_pos : (0 < chunk_size)%nat.
Proof. unfold chunk_size. apply Nat.ltb_lt. vm_compute. reflexivity. Qed.

Lemma with_file_id s ruta old :
  files (world s) !! ruta = Some old → with_file s ruta old = s.
Proof.
  destruct s as [me [f d o]]. simpl. intros H. unfold with_file. simpl.
  by rewrite insert_id.
Qed.

Lemma with_file_twice s ruta d1 d2 :
  with_file (with_file s ruta d1) ruta d2 = with_file s ruta d2.
Proof. unfold with_file. simpl. by rewrite insert_insert_eq. Qed.

Lemma file_write_ok ruta k c s old :
  write_fails env ruta k = None →
  files (world s) !! ruta = Some old →
  file_write env ruta k c s = (Ok tt, with_file s ruta (old ++ c)).
Proof.
  intros Hw Hf. unfold file_write. rewrite Hw. unfold_monad.
  unfold with_file. by rewrite Hf.
Qed.

(** All the chunks get written when no write fails. *)
Lemma write_chunks_all r ruta chunks :
  ∀ k s old,
    files (world s) !! ruta = Some old →
    (∀ j, (j < length chunks)%nat → write_fails env ruta (k + j) = None) →
    write_chunks env r ruta k chunks s
    = end_of_body r (with_file s ruta (old ++ concat chunks)).
Proof.
  induction chunks as [|c chunks IH]; intros k s old Hf Hw.
  - simpl. by rewrite app_nil_r, (with_file_id s ruta old).
  - cbn [write_chunks]. unfold_monad.
    rewrite (file_write_ok ruta k c s old); [|specialize (Hw 0%nat); rewrite Nat.add_0_r in Hw; apply Hw; simpl; lia|done].
    rewrite (IH (S k) _ (old ++ c)).
    + by rewrite with_file_twice, <- app_assoc.
    + simpl. by rewrite lookup_insert_eq.
    + intros j Hj. replace (S k + j)%nat with (k + S j)%nat by lia.
      apply Hw. simpl. lia.
Qed.

(** The loop stops at the first write that fails, with what was written
    before on disk. *)
Lemma write_chunks_fails r ruta chunks :
  ∀ k s old i e,
    files (world s) !! ruta = Some old →
    (i < length chunks)%nat →
    write_fails env ruta (k + i) = Some e →
    (∀ j, (j < i)%nat → write_fails env ruta (k + j) = None) →
    write_chunks env r ruta k chunks s
    = (Raise (OSError e ruta), with_file s ruta (old ++ concat (take i chunks))).
Proof.
  induction chunks as [|c chunks IH]; intros k s old i e Hf Hi He Hw.
  - simpl in Hi. lia.
  - cbn [write_chunks]. unfold_monad. destruct i as [|i].
    + rewrite Nat.add_0_r in He. unfold file_write. rewrite He. unfold_monad.
      simpl. by rewrite app_nil_r, (with_file_id s ruta old).
    + rewrite (file_write_ok ruta k c s old); [|specialize (Hw 0%nat); rewrite Nat.add_0_r in Hw; apply Hw; lia|done].
      rewrite (IH (S k) _ (old ++ c) i e).
      * simpl. by rewrite with_file_twice, <- app_assoc.
      * simpl. by rewrite lookup_insert_eq.
      * simpl in Hi. lia.
      * by replace (S k + i)%nat with (k + S i)%nat by lia.
      * intros j Hj. replace (S k + j)%nat with (k + S j)%nat by lia.
        apply Hw. lia.
Qed.

(** However the loop ends, it changes nothing but files, and what it raises
    is the failure of the body or an [OSError]. *)
Lemma write_chunks_outcome r ruta chunks :
  ∀ k s, ∃ s1,
    same_but_files s s1 ∧
    (write_chunks env r ruta k chunks s = (Ok tt, s1)
     ∨ (∃ e, body_error r = Some e
             ∧ write_chunks env r ruta k chunks s = (Raise (RequestException e), s1))
     ∨ (∃ e, write_chunks env r ruta k chunks s = (Raise (OSError e ruta), s1))).
Proof.
  induction chunks as [|c chunks IH]; intros k s.
  - exists s. split; [done|]. simpl. unfold end_of_body. unfold_monad.
    destruct (body_error r) as [e|]; eauto.
  - cbn [write_chunks]. unfold_monad. unfold file_write.
    destruct (write_fails env ruta k) as [e|].
    + exists s. split; [done|]. unfold_monad. eauto.
    + unfold_monad.
      set (s' := mkState _ _).
      destruct (IH (S k) s') as (s1 & Hs & H).
      exists s1. split; [|done].
      destruct Hs as (?&?&?). by repeat split.
Qed.

End FetchFacts.

Section FetchPaths.
Variable env : Environment.

Lemma descargar_net_error u f s e :
  net env (fetch_request u) = inl e →
  descargar_imagen env u f s = (Ok tt, printed s (fetch_diagnostic f e)).
Proof.
  intros H. unfold descargar_imagen, try_except_RequestException, requests_get.
  unfold_monad. unfold fetch_request in H. by rewrite H.
Qed.

Lemma descargar_http_error u f s r m :
  net env (fetch_request u) = inr r →
  http_error_msg r = Some m →
  descargar_imagen env u f s
  = (Ok tt, printed s (fetch_diagnostic f (HTTPError m))).
Proof.
  intros H Hm.
  unfold descargar_imagen, try_except_RequestException, requests_get,
    raise_for_status.
  unfold_monad. unfold fetch_request in H. by rewrite H, Hm.
Qed.

Lemma descargar_open_fails u f s r e :
  net env (fetch_request u) = inr r →
  http_error_msg r = None →
  open_fails env (os_path_join (directorio_imagenes (self s)) f) = Some e →
  descargar_imagen env u f s
  = (Raise (OSError e (os_path_join (directorio_imagenes (self s)) f)), s).
Proof.
  intros H Hm Ho.
  unfold descargar_imagen, try_except_RequestException, requests_get,
    raise_for_status, open_wb.
  unfold_monad. unfold fetch_request in H. by rewrite H, Hm, Ho.
Qed.

Lemma descargar_after_open u f s r :
  net env (fetch_request u) = inr r →
  http_error_msg r = None →
  let ruta := os_path_join (directorio_imagenes (self s)) f in
  open_fails env ruta = None →
  descargar_imagen env u f s
  = match write_chunks env r ruta 0 (iter_content chunk_size (content r))
            (with_file s ruta []) with
    | (Ok _, s1) => (Ok tt, printed s1 (fetch_ok_line f))
    | (Raise e, s1) =>
        match as_RequestException e with
        | Some re => (Ok tt, printed s1 (fetch_diagnostic f re))
        | None => (Raise e, s1)
        end
    end.
Proof.
  intros H Hm ruta Ho.
  unfold descargar_imagen, try_except_RequestException, requests_get,
    raise_for_status, open_wb.
  unfold_monad. unfold fetch_request in H. rewrite H, Hm. fold ruta.
  rewrite Ho. unfold with_file. simpl.
  by destruct (write_chunks _ _ _ _ _ _) as [[[]|e] s1].
Qed.

(** The three ways out of [descargar_imagen]: the download is announced, a
    diagnostic is printed for a request exception, or an [OSError] leaves
    the method.  Apart from the printed line, only files change. *)
Lemma descargar_outcome u f s :
  ∃ s1, same_but_files s s1 ∧
    (descargar_imagen env u f s = (Ok tt, printed s1 (fetch_ok_line f))
     ∨ (∃ e, descargar_imagen env u f s
             = (Ok tt, printed s1 (fetch_diagnostic f e)))
     ∨ (∃ e p, descargar_imagen env u f s = (Raise (OSError e p), s1))).
Proof.
  destruct (net env (fetch_request u)) as [e|r] eqn:Hnet.
  { exists s. split; [done|]. right; left. exists e. by apply descargar_net_error. }
  destruct (http_error_msg r) as [m|] eqn:Hm.
  { exists s. split; [done|]. right; left. eexists. by eapply descargar_http_error. }
  destruct (open_fails env (os_path_join (directorio_imagenes (self s)) f))
    as [e|] eqn:Ho.
  { exists s. split; [done|]. right; right. do 2 eexists.
    by eapply descargar_open_fails. }
  rewrite (descargar_after_open u f s r Hnet Hm Ho).
  destruct (write_chunks_outcome env r
              (os_path_join (directorio_imagenes (self s)) f)
              (iter_content chunk_size (content r)) 0
              (with_file s (os_path_join (directorio_imagenes (self s)) f) []))
    as (s1 & Hs & [H|[(e & _ & H)|(e & H)]]); rewrite H; simpl;
    exists s1; (split; [by destruct Hs as (?&?&?)|]); eauto.
Qed.

End FetchPaths.

(** C8.  A fetch succeeds when the request is answered with a status that
    [raise_for_status] lets pass, the body arrives whole, and [open] and
    every [write] succeed.  Then the file at the joined path holds exactly
    the body, whatever was there before; every other file is as it was;
    directories are untouched and the download is announced.  The chunks
    have at most [chunk_size] bytes and put together they are the body.
    The joined path is [<directory>/<filename>] for a directory written
    without a final separator and a relative file name. *)
Theorem fetch_writes_body env u f s r :
  net env (fetch_request u) = inr r →
  ¬ (400 <= status_code r < 600)%Z →
  body_error r = None →
  let ruta := os_path_join (directorio_imagenes (self s)) f in
  open_fails env ruta = None →
  (∀ k, write_fails env ruta k = None) →
  let s' := snd (descargar_imagen env u f s) in
  descargar_imagen env u f s
  = (Ok tt, printed (with_file s ruta (content r)) (fetch_ok_line f)) ∧
  files (world s') !! ruta = Some (content r) ∧
  (∀ p, p ≠ ruta → files (world s') !! p = files (world s) !! p) ∧
  dirs (world s') = dirs (world s) ∧
  concat (iter_content chunk_size (content r)) = content r ∧
  Forall (fun c => (0 < length c ≤ chunk_size)%nat)
         (iter_content chunk_size (content r)) ∧
  (directorio_imagenes (self s) ≠ "" →
   endswith_sep (directorio_imagenes (self s)) = false →
   startswith_sep f = false →
   ruta = directorio_imagenes (self s) +:+ "/" +:+ f).
Proof.
  intros Hnet Hst Hbody ruta Ho Hw s'. apply http_error_msg_None in Hst.
  assert (Hrun : descargar_imagen env u f s
    = (Ok tt, printed (with_file s ruta (content r)) (fetch_ok_line f))).
  { rewrite (descargar_after_open env u f s r Hnet Hst Ho). fold ruta.
    rewrite (write_chunks_all env r ruta _ 0 _ []).
    - unfold end_of_body. rewrite Hbody. unfold_monad. simpl.
      by rewrite with_file_twice, iter_content_concat by apply chunk_size_pos.
    - simpl. by rewrite lookup_insert_eq.
    - intros j _. apply Hw. }
  subst s'. rewrite Hrun. simpl.
  split; [done|]. split; [by rewrite lookup_insert_eq|].
  split; [intros p Hp; by rewrite lookup_insert_ne|].
  split; [done|].
  split; [apply iter_content_concat, chunk_size_pos|].
  split; [apply iter_content_fuel_sizes, chunk_size_pos|].
  intros Hd He Hf. subst ruta. unfold os_path_join. rewrite Hf, He.
  destruct (String.eqb_spec (directorio_imagenes (self s)) ""); done.
Qed.

Lemma fetch_writes_body_witness :
  let r := respuesta_imagen 200 ["a"; "b"]%byte None in
  let env := entorno (inl (ConnectionError "")) (inr r) in
  ¬ (400 <= status_code r < 600)%Z ∧
  descargar_imagen env (PyStr "http://x/a.jpg") "imagen_1.jpg" s0
  = (Ok tt, printed (with_file s0 "imagenes_descargadas/imagen_1.jpg" ["a"; "b"]%byte)
              (fetch_ok_line "imagen_1.jpg")).
Proof.
  intros r env.
  assert (Hst : ¬ (400 <= status_code r < 600)%Z) by (simpl; lia).
  split; [exact Hst|].
  apply (fetch_writes_body env (PyStr "http://x/a.jpg") "imagen_1.jpg" s0 r
           eq_refl Hst eq_refl eq_refl (fun _ => eq_refl)).
Defined.

(** C10.  [descargar_imagen] catches request exceptions only.  When the
    request is answered with a status that [raise_for_status] lets pass and
    [open] fails, the [OSError] leaves the method with the state untouched;
    when [open] succeeds and the write of the chunk number [k] is the first
    to fail, the [OSError] leaves the method with the earlier chunks in the
    file.  In both cases nothing is printed. *)
Theorem fetch_filesystem_error_escapes env u f s r :
  net env (fetch_request u) = inr r →
  ¬ (400 <= status_code r < 600)%Z →
  let ruta := os_path_join (directorio_imagenes (self s)) f in
  let chunks := iter_content chunk_size (content r) in
  (∀ e, open_fails env ruta = Some e →
        descargar_imagen env u f s = (Raise (OSError e ruta), s)
        ∧ as_RequestException (OSError e ruta) = None) ∧
  (∀ e k, open_fails env ruta = None →
          (k < length chunks)%nat →
          write_fails env ruta k = Some e →
          (∀ j, (j < k)%nat → write_fails env ruta j = None) →
          descargar_imagen env u f s
          = (Raise (OSError e ruta),
             with_file s ruta (concat (take k chunks)))
          ∧ stdout (world (snd (descargar_imagen env u f s)))
            = stdout (world s)).
Proof.
  intros Hnet Hst ruta chunks. apply http_error_msg_None in Hst. split.
  - intros e Ho. split; [|done]. by apply (descargar_open_fails env u f s r).
  - intros e k Ho Hk He Hw.
    assert (Hrun : descargar_imagen env u f s
      = (Raise (OSError e ruta), with_file s ruta (concat (take k chunks)))).
    { rewrite (descargar_after_open env u f s r Hnet Hst Ho). fold ruta chunks.
      rewrite (write_chunks_fails env r ruta chunks 0 _ [] k e);
        [|simpl; by rewrite lookup_insert_eq|done|done|done].
      simpl. by rewrite with_file_twice. }
    by rewrite Hrun.
Qed.

Lemma fetch_filesystem_error_escapes_witness :
  let r := respuesta_imagen 200 ["a"; "b"]%byte None in
  let env := entorno_sin_permiso (inr r) in
  ¬ (400 <= status_code r < 600)%Z ∧
  descargar_imagen env (PyStr "http://x/a.jpg") "imagen_1.jpg" s0
  = (Raise (OSError PermissionError "imagenes_descargadas/imagen_1.jpg"), s0).
Proof.
  intros r env.
  assert (Hst : ¬ (400 <= status_code r < 600)%Z) by (simpl; lia).
  split; [exact Hst|].
  destruct (fetch_filesystem_error_escapes env (PyStr "http://x/a.jpg")
              "imagen_1.jpg" s0 r eq_refl Hst) as [H _].
  apply (H PermissionError eq_refl).
Defined.

(** ** The threads *)

Section ThreadFacts.
Variable env : Environment.

Lemma thread_step_finished t s :
  is_finished t = true → thread_step env t s = None.
Proof. unfold is_finished, thread_step. by destruct (t_pc t). Qed.

(** A thread that has not finished can always move; the move keeps the
    attributes of the instance and brings the thread nearer to its end. *)
Lemma thread_step_progress t s :
  is_finished t = false →
  ∃ pc s', thread_step env t s = Some (pc, s')
           ∧ self s' = self s
           ∧ (remaining env (mkThread (t_url t) (t_nombre t) pc)
              < remaining env t)%nat.
Proof.
  destruct t as [u f pc]. unfold is_finished, thread_step, remaining. simpl.
  destruct pc as [|r|r ruta k [|c cs]| |e|res]; intros Hf; try done.
  - unfold requests_get, raise_for_status, fetch_request. unfold_monad.
    destruct (net env _) as [e|r]; simpl.
    + do 2 eexists. split; [done|]. simpl. split; [done|lia].
    + destruct (http_error_msg r); simpl;
        do 2 eexists; (split; [done|]); simpl; (split; [done|lia]).
  - unfold open_wb. unfold_monad.
    destruct (open_fails env _); simpl;
      do 2 eexists; (split; [done|]); simpl; (split; [done|lia]).
  - unfold end_of_body. unfold_monad.
    destruct (body_error r); simpl;
      do 2 eexists; (split; [done|]); simpl; (split; [done|lia]).
  - unfold file_write. unfold_monad.
    destruct (write_fails env ruta k); simpl;
      do 2 eexists; (split; [done|]); simpl; (split; [done|lia]).
  - unfold_monad. simpl. do 2 eexists. split; [done|]. simpl. split; [done|lia].
  - unfold_monad. simpl. do 2 eexists. split; [done|]. simpl. split; [done|lia].
Qed.

Lemma thread_step_Some_inv t s pc s' :
  thread_step env t s = Some (pc, s') → is_finished t = false.
Proof.
  intros H. destruct (is_finished t) eqn:E; [|done].
  by rewrite thread_step_finished in H.
Qed.

End ThreadFacts.

Section Invariant.
Variable env : Environment.
Variables (q : string) (n : Z) (s : State).

Local Abbreviation c0 := (descargar_imagenes_concurrentes q n s).
Local Abbreviation res := (fst (obtener_urls_imagenes env q n s)).

Lemma tareas_snoc urls u :
  tareas (urls ++ [u]) = tareas urls ++ [(u, nombre_archivo (length urls))].
Proof.
  unfold tareas. rewrite imap_app. simpl. by rewrite Nat.add_0_r.
Qed.

Lemma tareas_length urls : length (tareas urls) = length urls.
Proof. apply length_imap. Qed.

Lemma tareas_lookup urls i u :
  urls !! i = Some u → tareas urls !! i = Some (u, nombre_archivo i).
Proof. intros H. unfold tareas. by rewrite list_lookup_imap, H. Qed.

Lemma Inv_init : Inv c0 res c0.
Proof. done. Qed.

Lemma Inv_main_step c c' :
  Inv c0 res c → main_step env c = Some c' → Inv c0 res c'.
Proof.
  unfold Inv, main_step. intros HI Hstep.
  destruct (main c) as [q' n'|i [|u pend] hilos|[|h pend]|r] eqn:Hm.
  - subst c. simpl in Hm. injection Hm as <- <-. simpl in Hstep.
    destruct (obtener_urls_imagenes env q n s) as [[[|u urls]|e] s1];
      simplify_eq; simpl.
    + left. done.
    + exists (u :: urls). done.
    + left. done.
  - destruct HI as (urls & Hres & Hne & Hu & Hi & Ha & Hh).
    rewrite app_nil_r in Hu. simplify_eq. simpl.
    exists (map t_url (pool c)), 0%nat.
    repeat split; try done.
    + by rewrite Nat.sub_0_r.
    + lia.
    + intros j t Hj. lia.
  - destruct HI as (urls & Hres & Hne & Hu & Hi & Ha & Hh). simplify_eq. simpl.
    exists (map t_url (pool c) ++ u :: pend).
    repeat split; try done.
    + by rewrite map_app, <- app_assoc.
    + by rewrite length_app, Nat.add_1_r.
    + rewrite !map_app. simpl. rewrite tareas_snoc, Ha.
      by rewrite length_map.
    + exact (eq_sym (seq_S (length (pool c)) 0)).
  - destruct HI as (urls & k & Hres & Hne & Ha & Hp & Hk & Hfin).
    simplify_eq. simpl. right. exists urls. repeat split; try done.
    apply Forall_lookup. intros j t Hj. apply (Hfin j t); [|done].
    apply lookup_lt_Some in Hj.
    destruct (length (pool c) - k)%nat eqn:E; [lia|done].
  - destruct HI as (urls & k & Hres & Hne & Ha & Hp & Hk & Hfin).
    destruct (pool c !! h) as [t|] eqn:Hh; [|done].
    destruct (is_finished t) eqn:Hf; [|done]. simplify_eq. simpl.
    destruct (length (pool c) - k)%nat as [|m] eqn:E; [done|].
    simpl in Hp. simplify_eq.
    exists urls, (S k). repeat split; try done.
    + f_equal. lia.
    + lia.
    + intros j t' Hj Hl. destruct (decide (j = k)) as [->|]; [by simplify_eq|].
      apply (Hfin j t'); [lia|done].
  - done.
Qed.

Lemma Inv_thread_step c c' j :
  Inv c0 res c → step env c (Some j) = Some c' → Inv c0 res c'.
Proof.
  unfold Inv. intros HI Hstep. simpl in Hstep.
  destruct (pool c !! j) as [t|] eqn:Hj; [|done]. simpl in Hstep.
  destruct (thread_step env t (shared c)) as [[pc s']|] eqn:Ht; [|done].
  simpl in Hstep. simplify_eq. simpl.
  apply thread_step_Some_inv in Ht.
  set (t' := mkThread (t_url t) (t_nombre t) pc).
  assert (Hargs : map args (<[j := t']> (pool c)) = map args (pool c)).
  { rewrite list_fmap_insert. apply list_insert_id.
    by rewrite list_lookup_fmap, Hj. }
  assert (Hurl : map t_url (<[j := t']> (pool c)) = map t_url (pool c)).
  { rewrite list_fmap_insert. apply list_insert_id.
    by rewrite list_lookup_fmap, Hj. }
  destruct (main c) as [q' n'|i pend hilos|pend|r] eqn:Hm.
  - subst c. done.
  - destruct HI as (urls & Hres & Hne & Hu & Hi & Ha & Hh).
    exists urls. rewrite Hargs, Hurl, length_insert. done.
  - destruct HI as (urls & k & Hres & Hne & Ha & Hp & Hk & Hfin).
    exists urls, k. rewrite Hargs, length_insert. repeat split; try done.
    intros i t0 Hi Hl. destruct (decide (i = j)) as [->|Hne'].
    + rewrite (Hfin j t Hi Hj) in Ht. done.
    + rewrite list_lookup_insert_ne in Hl by done. eauto.
  - destruct HI as [[Hp Hr]|(urls & Hres & Hne & Hr & Ha & Hfin)].
    + by rewrite Hp in Hj.
    + rewrite Forall_lookup in Hfin. rewrite (Hfin j t Hj) in Ht. done.
Qed.

Lemma Inv_reachable c : reachable env c0 c → Inv c0 res c.
Proof.
  apply (rtc_ind_r (fun c => Inv c0 res c) c0); [apply Inv_init|].
  intros c1 c2 _ [[j|] Hstep] HI.
  - by eapply Inv_thread_step.
  - by eapply Inv_main_step.
Qed.

End Invariant.

Section Launch.
Variable env : Environment.

Lemma reachable_step c c' who :
  step env c who = Some c' → reachable env c c'.
Proof. intros H. apply rtc_once. by exists who. Qed.

Lemma reachable_trans c1 c2 c3 :
  reachable env c1 c2 → reachable env c2 c3 → reachable env c1 c3.
Proof. unfold reachable. intros. by etrans. Qed.

(** The caller can always get through the loop of lines 129-133: from
    position [i] it makes a thread for each pending address and comes to
    the first [join]. *)
Lemma launch_steps pend :
  ∀ i hilos p sh,
    reachable env
      (mkConfig (MainLaunch i pend hilos) p sh)
      (mkConfig (MainJoin (hilos ++ seq (length p) (length pend)))
         (p ++ imap (fun k u => mkThread u (nombre_archivo (i + k)) AtGet) pend)
         sh).
Proof.
  induction pend as [|u pend IH]; intros i hilos p sh.
  - simpl. rewrite !app_nil_r. by apply (reachable_step _ _ None).
  - eapply reachable_trans; [by apply (reachable_step _ _ None)|].
    simpl. eapply reachable_trans; [apply IH|].
    rewrite length_app, <- !app_assoc. simpl.
    rewrite Nat.add_1_r, Nat.add_0_r.
    assert (Heq :
      imap (fun k u0 => mkThread u0 (nombre_archivo (S (i + k))) AtGet) pend
      = imap ((fun k u0 => mkThread u0 (nombre_archivo (i + k)) AtGet) ∘ S) pend).
    { apply imap_ext. intros k x _. simpl. by rewrite Nat.add_succ_r. }
    rewrite Heq. apply rtc_refl.
Qed.

Lemma fresh_threads_args urls : map args (fresh_threads urls) = tareas urls.
Proof.
  unfold fresh_threads, tareas. rewrite fmap_imap. by apply imap_ext.
Qed.

Lemma launch_all q n s urls s' :
  obtener_urls_imagenes env q n s = (Ok urls, s') → urls ≠ [] →
  reachable env (descargar_imagenes_concurrentes q n s)
    (mkConfig (MainJoin (seq 0 (length urls))) (fresh_threads urls) s').
Proof.
  intros Hs Hne.
  eapply reachable_trans.
  { apply (reachable_step _ (mkConfig (MainLaunch 0 urls []) [] s') None).
    simpl. unfold main_step. simpl. rewrite Hs. by destruct urls. }
  apply (launch_steps urls 0 [] [] s').
Qed.

End Launch.

(** C2.  When the search returns a list of addresses that is not empty,
    the threads of every configuration were made with the first tasks of
    [tareas urls], in order, and once the caller is past the loop of line
    129 they were made with exactly [tareas urls]: one thread for each
    address, the address at position [i] (from 0) with the file name
    [imagen_<i+1>.jpg].  The caller does get past the loop, with every
    thread started.  The file names are the first of the fixed sequence
    [imagen_1.jpg], [imagen_2.jpg], ...: they depend on the number of
    addresses only, so a call that gets as many addresses uses the same
    names. *)
Theorem run_starts_one_fetch_per_url env q n s urls s' :
  obtener_urls_imagenes env q n s = (Ok urls, s') →
  urls ≠ [] →
  let c0 := descargar_imagenes_concurrentes q n s in
  (∀ c, reachable env c0 c →
        map args (pool c) `prefix_of` tareas urls
        ∧ match main c with
          | MainJoin _ | MainReturned _ => map args (pool c) = tareas urls
          | _ => True
          end) ∧
  reachable env c0
    (mkConfig (MainJoin (seq 0 (length urls))) (fresh_threads urls) s') ∧
  map args (fresh_threads urls) = tareas urls ∧
  length (tareas urls) = length urls ∧
  (∀ i u, urls !! i = Some u →
          tareas urls !! i
          = Some (u, "imagen_" +:+ pretty (i + 1)%nat +:+ ".jpg")) ∧
  map snd (tareas urls) = map nombre_archivo (seq 0 (length urls)) ∧
  (∀ urls', length urls' = length urls →
            map snd (tareas urls') = map snd (tareas urls)).
Proof.
  intros Hs Hne c0.
  assert (Hnames : ∀ l, map snd (tareas l)
                        = map nombre_archivo (seq 0 (length l))).
  { intros l. unfold tareas. rewrite fmap_imap. apply list_eq. intros i.
    rewrite list_lookup_imap, list_lookup_fmap.
    destruct (l !! i) as [u|] eqn:Hi; simpl.
    - apply lookup_lt_Some in Hi. by rewrite lookup_seq_lt.
    - apply lookup_ge_None in Hi. by rewrite lookup_seq_ge. }
  split; [|split; [|split; [|split; [|split; [|split]]]]].
  - intros c Hc. apply Inv_reachable in Hc. unfold Inv in Hc. rewrite Hs in Hc.
    simpl in Hc.
    destruct (main c) as [q' n'|i pend hilos|pend|r].
    + subst c. split; [apply prefix_nil|done].
    + destruct Hc as (urls0 & [= <-] & _ & Hu & _ & Ha & _).
      split; [|done]. rewrite Ha, <- Hu. unfold tareas. rewrite imap_app.
      by apply prefix_app_r.
    + destruct Hc as (urls0 & k & [= <-] & _ & Ha & _). by rewrite Ha.
    + destruct Hc as [[_ [-> _]]|(urls0 & [= <-] & _ & _ & Ha & _)]; [done|].
      by rewrite Ha.
  - by apply launch_all.
  - apply fresh_threads_args.
  - apply tareas_length.
  - intros i u Hi. by apply tareas_lookup.
  - apply Hnames.
  - intros urls' Hlen. by rewrite !Hnames, Hlen.
Qed.

Lemma run_starts_one_fetch_per_url_witness :
  let urls := [PyStr "http://x/a.jpg"; PyStr "http://x/b.jpg"] in
  let r := respuesta_api 200
             (Some (PyDict [("hits", PyList [hit "http://x/a.jpg"; hit "http://x/b.jpg"])])) in
  let env := entorno (inr r) (inr (respuesta_imagen 200 ["a"; "b"]%byte None)) in
  urls ≠ [] ∧
  reachable env (descargar_imagenes_concurrentes "perros" 2 s0)
    (mkConfig (MainJoin [0; 1]%nat)
       [mkThread (PyStr "http://x/a.jpg") "imagen_1.jpg" AtGet;
        mkThread (PyStr "http://x/b.jpg") "imagen_2.jpg" AtGet] s0).
Proof.
  intros urls r env.
  assert (Hne : urls ≠ []) by discriminate.
  split; [exact Hne|].
  destruct (run_starts_one_fetch_per_url env "perros" 2 s0 urls s0 eq_refl Hne)
    as (_ & H & _).
  exact H.
Defined.

Section ThreadAlone.
Variable env : Environment.

Lemma thread_run_finished fuel u f r s :
  thread_run env fuel (mkThread u f (Finished r)) s
  = (mkThread u f (Finished r), s).
Proof. by destruct fuel. Qed.

Lemma thread_run_write u f r ruta chunks :
  ∀ k s fuel,
    (2 + length chunks ≤ fuel)%nat →
    thread_run env fuel (mkThread u f (AtWrite r ruta k chunks)) s
    = match write_chunks env r ruta k chunks s with
      | (Ok _, s1) =>
          (mkThread u f (Finished (Ok tt)), printed s1 (fetch_ok_line f))
      | (Raise e, s1) =>
          match as_RequestException e with
          | Some re =>
              (mkThread u f (Finished (Ok tt)),
               printed s1 (fetch_diagnostic f re))
          | None => (mkThread u f (Finished (Raise e)), s1)
          end
      end.
Proof.
  induction chunks as [|c chunks IH]; intros k s fuel Hfuel.
  - destruct fuel as [|[|fuel]]; [simpl in Hfuel; lia..|].
    simpl. unfold end_of_body. unfold_monad.
    destruct (body_error r) as [e|]; simpl; by rewrite thread_run_finished.
  - destruct fuel as [|fuel]; [simpl in Hfuel; lia|].
    cbn [thread_run thread_step t_pc t_url t_nombre write_chunks].
    unfold_monad. unfold file_write.
    destruct (write_fails env ruta k) as [e|]; unfold_monad; simpl.
    + unfold on_raise. simpl. by rewrite thread_run_finished.
    + apply IH. simpl in Hfuel. lia.
Qed.

Lemma thread_run_S fuel t s :
  thread_run env (S fuel) t s
  = match thread_step env t s with
    | Some (pc, s') =>
        thread_run env fuel (mkThread (t_url t) (t_nombre t) pc) s'
    | None => (t, s)
    end.
Proof. done. Qed.

Lemma step_get_ok u f s r :
  net env (fetch_request u) = inr r →
  http_error_msg r = None →
  thread_step env (mkThread u f AtGet) s = Some (AtOpen r, s).
Proof.
  intros Hnet Hm. unfold thread_step, requests_get, raise_for_status.
  unfold_monad. unfold fetch_request in Hnet. simpl. by rewrite Hnet, Hm.
Qed.

Lemma step_open_fails u f s r e :
  open_fails env (os_path_join (directorio_imagenes (self s)) f) = Some e →
  thread_step env (mkThread u f (AtOpen r)) s
  = Some (Finished (Raise (OSError e (os_path_join (directorio_imagenes (self s)) f))), s).
Proof.
  intros Ho. unfold thread_step, open_wb. unfold_monad.
  cbn [t_pc t_url t_nombre]. by rewrite Ho.
Qed.

Lemma step_open_ok u f s r :
  let ruta := os_path_join (directorio_imagenes (self s)) f in
  open_fails env ruta = None →
  thread_step env (mkThread u f (AtOpen r)) s
  = Some (AtWrite r ruta 0 (iter_content chunk_size (content r)),
          with_file s ruta []).
Proof.
  intros ruta Ho. unfold thread_step, open_wb. unfold_monad.
  cbn [t_pc t_url t_nombre]. fold ruta. by rewrite Ho.
Qed.

(** A thread that runs on its own does what [descargar_imagen] does. *)
Lemma thread_alone_is_descargar_imagen u f s :
  thread_run env (remaining env (mkThread u f AtGet)) (mkThread u f AtGet) s
  = (mkThread u f (Finished (fst (descargar_imagen env u f s))),
     snd (descargar_imagen env u f s)).
Proof.
  unfold remaining. cbn [t_pc t_url].
  destruct (net env (fetch_request u)) as [e|r] eqn:Hnet.
  { rewrite (descargar_net_error env u f s e Hnet). simpl.
    unfold requests_get. unfold_monad. unfold fetch_request in Hnet.
    by rewrite Hnet. }
  set (len := length (iter_content chunk_size (content r))).
  change (4 + len)%nat with (S (S (2 + len))).
  destruct (http_error_msg r) as [m|] eqn:Hm.
  { rewrite (descargar_http_error env u f s r m Hnet Hm).
    cbn [thread_run thread_step t_pc t_url t_nombre].
    unfold requests_get, raise_for_status. unfold_monad.
    unfold fetch_request in Hnet. rewrite Hnet, Hm. simpl.
    by rewrite ?thread_run_finished. }
  rewrite thread_run_S, (step_get_ok u f s r Hnet Hm). cbn [t_url t_nombre].
  rewrite thread_run_S.
  destruct (open_fails env (os_path_join (directorio_imagenes (self s)) f))
    as [e|] eqn:Ho.
  { rewrite (descargar_open_fails env u f s r e Hnet Hm Ho).
    rewrite (step_open_fails u f s r e Ho). cbn [t_url t_nombre fst snd].
    by rewrite thread_run_finished. }
  rewrite (descargar_after_open env u f s r Hnet Hm Ho).
  rewrite (step_open_ok u f s r Ho). cbn [t_url t_nombre].
  rewrite thread_run_write by (subst len; lia).
  by destruct (write_chunks _ _ _ _ _ _) as [[[]|e] s1];
    [|destruct (as_RequestException e)].
Qed.

End ThreadAlone.

Section Attributes.
Variable env : Environment.

Lemma obtener_self q n s :
  self (snd (obtener_urls_imagenes env q n s)) = self s.
Proof.
  destruct (net env (search_request (self s) q n)) as [e|r] eqn:Hnet.
  { by rewrite (obtener_net_error env q n s e Hnet). }
  destruct (http_error_msg r) as [m|] eqn:Hm.
  { by rewrite (obtener_http_error env q n s r m Hnet Hm). }
  destruct (json_value r) as [datos|] eqn:Hj.
  - by rewrite (obtener_json env q n s r datos Hnet Hm Hj).
  - destruct (obtener_not_json env q n s r Hnet Hm Hj) as [m ->]. done.
Qed.

Lemma descargar_self u f s :
  self (snd (descargar_imagen env u f s)) = self s.
Proof.
  destruct (descargar_outcome env u f s)
    as (s1 & (Hs & _ & _) & [H|[[e H]|(e & p & H)]]); by rewrite H.
Qed.

Lemma step_self c c' who :
  step env c who = Some c' → self (shared c') = self (shared c).
Proof.
  destruct who as [j|]; simpl.
  - destruct (pool c !! j) as [t|]; [|done]. simpl.
    destruct (thread_step env t (shared c)) as [[pc s']|] eqn:Ht; [|done].
    simpl. intros [= <-]. simpl.
    destruct (thread_step_progress env t (shared c)
                (thread_step_Some_inv env t _ _ _ Ht))
      as (pc' & s'' & Ht' & Hs & _).
    rewrite Ht in Ht'. by simplify_eq.
  - unfold main_step.
    destruct (main c) as [q n|i [|u pend] hilos|[|h pend]|r]; try done.
    + pose proof (obtener_self q n (shared c)) as Hs.
      destruct (obtener_urls_imagenes env q n (shared c)) as [[[|u urls]|e] s1];
        intros [= <-]; done.
    + by intros [= <-].
    + by intros [= <-].
    + by intros [= <-].
    + destruct (pool c !! h) as [t|]; [|done].
      destruct (is_finished t); [|done]. by intros [= <-].
Qed.

Lemma reachable_self c c' :
  reachable env c c' → self (shared c') = self (shared c).
Proof.
  apply (rtc_ind_r (fun c' => self (shared c') = self (shared c)) c); [done|].
  intros c1 c2 _ [who Hstep] IH. rewrite <- IH. by eapply step_self.
Qed.

End Attributes.

Section Progress.
Variable env : Environment.

(** A thread that has not finished can take its next step whatever the
    other threads have done; the step leaves the caller and the other
    threads where they are. *)
Lemma step_thread_progress c j t :
  pool c !! j = Some t →
  is_finished t = false →
  ∃ c', step env c (Some j) = Some c'
        ∧ main c' = main c
        ∧ self (shared c') = self (shared c)
        ∧ length (pool c') = length (pool c)
        ∧ (∀ i, i ≠ j → pool c' !! i = pool c !! i)
        ∧ ∃ t', pool c' !! j = Some t' ∧ args t' = args t
                ∧ (remaining env t' < remaining env t)%nat.
Proof.
  intros Hj Hf.
  destruct (thread_step_progress env t (shared c) Hf) as (pc & s' & Hs & Hself & Hr).
  eexists. split.
  { simpl. rewrite Hj. simpl. rewrite Hs. simpl. reflexivity. }
  simpl. repeat split; try done.
  - by rewrite length_insert.
  - intros i Hi. by rewrite list_lookup_insert_ne.
  - eexists. split; [|split; [|exact Hr]]; [|done].
    rewrite list_lookup_insert_eq; [done|]. by eapply lookup_lt_Some.
Qed.

Lemma finish_thread m :
  ∀ c j t,
    (remaining env t ≤ m)%nat →
    pool c !! j = Some t →
    ∃ c', reachable env c c'
          ∧ main c' = main c
          ∧ length (pool c') = length (pool c)
          ∧ (∀ i, i ≠ j → pool c' !! i = pool c !! i)
          ∧ ∃ t', pool c' !! j = Some t' ∧ is_finished t' = true.
Proof.
  induction m as [|m IH]; intros c j t Hm Hj.
  - destruct (is_finished t) eqn:Hf.
    + exists c. repeat split; try done; [apply rtc_refl|eauto].
    + destruct (step_thread_progress c j t Hj Hf)
        as (c' & _ & _ & _ & _ & _ & t' & _ & _ & Hlt). lia.
  - destruct (is_finished t) eqn:Hf.
    + exists c. repeat split; try done; [apply rtc_refl|eauto].
    + destruct (step_thread_progress c j t Hj Hf)
        as (c' & Hstep & Hmain & _ & Hlen & Hoth & t' & Hj' & _ & Hlt).
      destruct (IH c' j t' ltac:(lia) Hj')
        as (c'' & Hreach & Hmain' & Hlen' & Hoth' & Hfin).
      exists c''. split; [|split; [|split; [|split]]].
      * eapply reachable_trans; [by eapply reachable_step|done].
      * congruence.
      * congruence.
      * intros i Hi. rewrite Hoth', Hoth; done.
      * done.
Qed.

Lemma finish_all k :
  ∀ c, (k ≤ length (pool c))%nat →
    ∃ c', reachable env c c'
          ∧ main c' = main c
          ∧ length (pool c') = length (pool c)
          ∧ ∀ i t, (i < k)%nat → pool c' !! i = Some t → is_finished t = true.
Proof.
  induction k as [|k IH]; intros c Hk.
  - exists c. repeat split; try done; [apply rtc_refl|]. intros; lia.
  - destruct (IH c ltac:(lia)) as (c1 & Hr1 & Hm1 & Hl1 & Hf1).
    destruct (lookup_lt_is_Some_2 (pool c1) k ltac:(lia)) as [t Ht].
    destruct (finish_thread (remaining env t) c1 k t ltac:(lia) Ht)
      as (c2 & Hr2 & Hm2 & Hl2 & Hoth & t' & Ht' & Hfin).
    exists c2. split; [|split; [|split]].
    + by eapply reachable_trans.
    + congruence.
    + congruence.
    + intros i t0 Hi Hl. destruct (decide (i = k)) as [->|Hne].
      * by simplify_eq.
      * rewrite Hoth in Hl by done. apply (Hf1 i t0); [lia|done].
Qed.

Lemma join_all pend :
  ∀ c, main c = MainJoin pend →
    (∀ h, h ∈ pend → ∃ t, pool c !! h = Some t ∧ is_finished t = true) →
    reachable env c
      (mkConfig (MainReturned (Ok tt)) (pool c) (printed (shared c) all_done_line)).
Proof.
  induction pend as [|h pend IH]; intros c Hm Hall.
  - apply (reachable_step _ _ _ None). simpl. unfold main_step. by rewrite Hm.
  - destruct (Hall h) as (t & Ht & Hf); [left|].
    eapply reachable_trans.
    + apply (reachable_step _ _ (mkConfig (MainJoin pend) (pool c) (shared c)) None).
      simpl. unfold main_step. by rewrite Hm, Ht, Hf.
    + apply (IH (mkConfig (MainJoin pend) (pool c) (shared c))); [done|].
      intros h' Hh'. apply Hall. by right.
Qed.

End Progress.

Section Completion.
Variable env : Environment.

Lemma run_schedule_reachable sched :
  ∀ c, reachable env c (run_schedule env sched c).
Proof.
  induction sched as [|who sched IH]; intros c; [apply rtc_refl|].
  unfold run_schedule. simpl. destruct (step env c who) as [c'|] eqn:Hs; simpl.
  - eapply reachable_trans; [by eapply reachable_step|apply IH].
  - apply IH.
Qed.

Lemma join_can_return q n s c pend :
  reachable env (descargar_imagenes_concurrentes q n s) c →
  main c = MainJoin pend →
  ∃ c', reachable env c c' ∧ main c' = MainReturned (Ok tt).
Proof.
  intros Hc Hm.
  destruct (finish_all env (length (pool c)) c ltac:(lia))
    as (c2 & Hr2 & Hm2 & Hl2 & Hfin).
  assert (Hc2 : reachable env (descargar_imagenes_concurrentes q n s) c2)
    by by eapply reachable_trans.
  apply Inv_reachable in Hc2. unfold Inv in Hc2. rewrite Hm2, Hm in Hc2.
  destruct Hc2 as (urls & k & _ & _ & _ & Hp & Hk & _).
  eexists. split.
  - eapply reachable_trans; [exact Hr2|].
    apply (join_all env pend c2); [congruence|].
    intros h Hh. rewrite Hp in Hh. apply elem_of_seq in Hh.
    destruct (lookup_lt_is_Some_2 (pool c2) h ltac:(lia)) as [t Ht].
    exists t. split; [done|]. apply (Hfin h t); [lia|done].
  - done.
Qed.

(** From every configuration of a call the caller can come to its end. *)
Lemma can_return q n s c :
  reachable env (descargar_imagenes_concurrentes q n s) c →
  ∃ c' r, reachable env c c' ∧ main c' = MainReturned r.
Proof.
  intros Hc.
  assert (Hlaunch : ∀ c1 i pend hilos,
    reachable env (descargar_imagenes_concurrentes q n s) c1 →
    main c1 = MainLaunch i pend hilos →
    ∃ c' r, reachable env c1 c' ∧ main c' = MainReturned r).
  { intros c1 i pend hilos Hc1 Hm1. destruct c1 as [m1 p1 sh1]. simpl in Hm1.
    subst m1. pose proof (launch_steps env pend i hilos p1 sh1) as Hl.
    edestruct (join_can_return q n s) as (c' & Hr & Hm');
      [eapply reachable_trans; [exact Hc1|exact Hl]|done|].
    exists c', (Ok tt). split; [|done]. by eapply reachable_trans. }
  destruct (main c) as [q' n'|i pend hilos|pend|r] eqn:Hm.
  - pose proof (Inv_reachable env q n s c Hc) as HI. unfold Inv in HI.
    rewrite Hm in HI. subst c.
    destruct (main_step env (descargar_imagenes_concurrentes q n s))
      as [c1|] eqn:Hs.
    2:{ unfold main_step in Hs. simpl in Hs.
        by destruct (obtener_urls_imagenes env q n s) as [[[|u urls]|e] s1]. }
    assert (Hc1 : reachable env (descargar_imagenes_concurrentes q n s) c1)
      by by apply (reachable_step env _ _ None).
    destruct (main c1) as [q1 n1|i pend hilos|pend|r] eqn:Hm1.
    + unfold main_step in Hs. simpl in Hs.
      destruct (obtener_urls_imagenes env q n s) as [[[|u urls]|e] s1];
        by simplify_eq.
    + destruct (Hlaunch c1 i pend hilos Hc1 Hm1) as (c' & r & Hr & Hm').
      exists c', r. split; [by eapply reachable_trans|done].
    + destruct (join_can_return q n s c1 pend Hc1 Hm1) as (c' & Hr & Hm').
      exists c', (Ok tt). split; [by eapply reachable_trans|done].
    + exists c1, r. done.
  - by eapply Hlaunch.
  - destruct (join_can_return q n s c pend Hc Hm) as (c' & Hr & Hm'). eauto.
  - exists c, r. split; [apply rtc_refl|done].
Qed.

End Completion.

Section Outcome.
Variable env : Environment.

(** The point a thread comes to by a step depends on the attributes of the
    instance, not on the files or the screen. *)
Lemma thread_step_pc_indep t s1 s2 :
  self s1 = self s2 →
  match thread_step env t s1, thread_step env t s2 with
  | Some (pc1, s1'), Some (pc2, s2') =>
      pc1 = pc2 ∧ self s1' = self s1 ∧ self s2' = self s2
  | None, None => True
  | _, _ => False
  end.
Proof.
  intros Hself. destruct t as [u f pc]. unfold thread_step. simpl.
  destruct pc as [|r|r ruta k [|c cs]| |e|res]; try done.
  - unfold requests_get, raise_for_status. unfold_monad.
    destruct (net env _) as [e|r]; simpl; [done|].
    by destruct (http_error_msg r).
  - unfold open_wb. unfold_monad. rewrite Hself.
    by destruct (open_fails env _).
  - unfold end_of_body. unfold_monad. by destruct (body_error r).
  - unfold file_write. unfold_monad. by destruct (write_fails env ruta k).
Qed.

Lemma thread_run_pc_indep k :
  ∀ t s1 s2,
    self s1 = self s2 →
    t_pc (fst (thread_run env k t s1)) = t_pc (fst (thread_run env k t s2)).
Proof.
  induction k as [|k IH]; intros t s1 s2 Hself; [done|].
  rewrite !thread_run_S.
  pose proof (thread_step_pc_indep t s1 s2 Hself) as H.
  destruct (thread_step env t s1) as [[pc1 s1']|],
           (thread_step env t s2) as [[pc2 s2']|]; try done.
  destruct H as (-> & H1 & H2). apply IH. congruence.
Qed.

(** The result of a fetch is the same in every state of the instance. *)
Lemma fetch_result_any_state u f s :
  fetch_result env (self s) u f = fst (descargar_imagen env u f s).
Proof.
  pose proof (thread_alone_is_descargar_imagen env u f s) as H1.
  pose proof (thread_alone_is_descargar_imagen env u f
                (mkState (self s) empty_world)) as H2.
  pose proof (thread_run_pc_indep (remaining env (mkThread u f AtGet))
                (mkThread u f AtGet) s (mkState (self s) empty_world) eq_refl)
    as H.
  rewrite H1, H2 in H. simpl in H. unfold fetch_result. congruence.
Qed.

Lemma runs_to_fresh me u f :
  runs_to env me (mkThread u f AtGet) (fetch_result env me u f).
Proof.
  exists (remaining env (mkThread u f AtGet)).
  by rewrite thread_alone_is_descargar_imagen.
Qed.

Lemma runs_to_step me t s pc s' r :
  self s = me →
  thread_step env t s = Some (pc, s') →
  runs_to env me t r →
  runs_to env me (mkThread (t_url t) (t_nombre t) pc) r.
Proof.
  intros Hself Hstep [k Hk].
  pose proof (thread_step_pc_indep t s (mkState me empty_world) Hself) as H.
  rewrite Hstep in H.
  destruct (thread_step env t (mkState me empty_world)) as [[pc2 s2]|] eqn:E;
    [|done].
  destruct H as (<- & _ & H2). simpl in H2.
  destruct k as [|k].
  - simpl in Hk. apply thread_step_Some_inv in Hstep.
    unfold is_finished in Hstep. by rewrite Hk in Hstep.
  - rewrite thread_run_S, E in Hk. exists k. rewrite <- Hk.
    by apply thread_run_pc_indep.
Qed.

Lemma runs_to_finished me t r r' :
  t_pc t = Finished r → runs_to env me t r' → r = r'.
Proof.
  intros Ht [k Hk]. destruct t as [u f pc]. simpl in Ht. subst pc.
  rewrite thread_run_finished in Hk. simpl in Hk. congruence.
Qed.

(** In every configuration of a call, every thread is on the way to the
    result that [descargar_imagen] gives for its arguments. *)
Lemma threads_on_track q n s c :
  reachable env (descargar_imagenes_concurrentes q n s) c →
  ∀ j t, pool c !! j = Some t →
         runs_to env (self s) t (fetch_result env (self s) (t_url t) (t_nombre t)).
Proof.
  apply (rtc_ind_r
    (fun c => ∀ j t, pool c !! j = Some t →
       runs_to env (self s) t
         (fetch_result env (self s) (t_url t) (t_nombre t)))
    (descargar_imagenes_concurrentes q n s)); [done|].
  intros c1 c2 Hc1 [[i|] Hstep] IH j t Hj.
  - simpl in Hstep.
    destruct (pool c1 !! i) as [ti|] eqn:Hi; [|done]. simpl in Hstep.
    destruct (thread_step env ti (shared c1)) as [[pc s']|] eqn:Ht; [|done].
    simpl in Hstep. simplify_eq. simpl in Hj.
    destruct (decide (j = i)) as [->|Hne].
    + rewrite list_lookup_insert_eq in Hj by by eapply lookup_lt_Some.
      simplify_eq. simpl.
      eapply (runs_to_step _ ti); [|done|by eapply IH].
      by apply reachable_self in Hc1.
    + rewrite list_lookup_insert_ne in Hj by done. eauto.
  - simpl in Hstep. unfold main_step in Hstep.
    destruct (main c1) as [q' n'|k [|u pend] hilos|[|h pend]|r].
    + destruct (obtener_urls_imagenes env q' n' (shared c1))
        as [[[|u urls]|e] s1]; simplify_eq; simpl in Hj; eauto.
    + simplify_eq. eauto.
    + simplify_eq. simpl in Hj.
      apply lookup_app_Some in Hj as [Hj|[_ Hj]]; [eauto|].
      apply list_lookup_singleton_Some in Hj as [_ <-]. simpl.
      apply runs_to_fresh.
    + simplify_eq. eauto.
    + destruct (pool c1 !! h) as [th|]; [|done].
      destruct (is_finished th); [|done]. simplify_eq. eauto.
    + done.
Qed.

End Outcome.

(** C7.  In every configuration of a call of
    [descargar_imagenes_concurrentes]:
    - if the caller has returned, every thread it made has finished, with
      a value or with an exception;
    - a thread that has not finished can take its next step whatever has
      become of the others (finished, failed or waiting), the step leaves
      the other threads as they are and brings the thread nearer to its
      end;
    - the caller cannot move only when it has returned or when it waits
      in [join] for a thread that has not finished;
    - the call can still come to its end;
    - a thread that has finished holds the result that [descargar_imagen]
      gives for its address and file name on its own: what happens to the
      fetch at one position does not change the result at another. *)
Theorem run_waits_for_every_fetch env q n s c :
  reachable env (descargar_imagenes_concurrentes q n s) c →
  (∀ r, main c = MainReturned r →
        Forall (fun t => is_finished t = true) (pool c)) ∧
  (∀ j t, pool c !! j = Some t → is_finished t = false →
          ∃ c', step env c (Some j) = Some c'
                ∧ main c' = main c
                ∧ (∀ i, i ≠ j → pool c' !! i = pool c !! i)
                ∧ ∃ t', pool c' !! j = Some t'
                        ∧ (remaining env t' < remaining env t)%nat) ∧
  (step env c None = None →
   (∃ r, main c = MainReturned r)
   ∨ (∃ h resto t, main c = MainJoin (h :: resto)
                   ∧ pool c !! h = Some t ∧ is_finished t = false)) ∧
  (∃ c' r, reachable env c c' ∧ main c' = MainReturned r) ∧
  (∀ j t r, pool c !! j = Some t → t_pc t = Finished r →
            r = fst (descargar_imagen env (t_url t) (t_nombre t) s)).
Proof.
  intros Hc. pose proof (Inv_reachable env q n s c Hc) as HI.
  split; [|split; [|split; [|split]]].
  - intros r Hr. unfold Inv in HI. rewrite Hr in HI.
    destruct HI as [[-> _]|(urls & _ & _ & _ & _ & Hfin)]; [constructor|done].
  - intros j t Hj Hf.
    destruct (step_thread_progress env c j t Hj Hf)
      as (c' & Hs & Hm & _ & _ & Hoth & t' & Ht' & _ & Hlt).
    exists c'. repeat split; try done. eauto.
  - intros Hstuck. simpl in Hstuck. unfold main_step in Hstuck.
    unfold Inv in HI.
    destruct (main c) as [q' n'|i [|u pend] hilos|[|h pend]|r] eqn:Hm;
      try done.
    + by destruct (obtener_urls_imagenes env q' n' (shared c))
        as [[[|u urls]|e] s1].
    + destruct HI as (urls & k & _ & _ & _ & Hp & Hk & _).
      destruct (length (pool c) - k)%nat as [|m] eqn:E; [done|].
      simpl in Hp. injection Hp as -> _.
      destruct (lookup_lt_is_Some_2 (pool c) k ltac:(lia)) as [t Ht].
      rewrite Ht in Hstuck. right. exists k, pend, t.
      by destruct (is_finished t).
    + left. eauto.
  - by eapply can_return.
  - intros j t r Hj Hr. rewrite <- fetch_result_any_state.
    eapply runs_to_finished; [done|]. by eapply threads_on_track.
Qed.

Lemma run_waits_for_every_fetch_witness :
  let c := run_schedule entorno_mixto horario
             (descargar_imagenes_concurrentes "perros" 2 s0) in
  reachable entorno_mixto (descargar_imagenes_concurrentes "perros" 2 s0) c ∧
  main c = MainReturned (Ok tt) ∧
  Forall (fun t => is_finished t = true) (pool c).
Proof.
  intros c.
  assert (Hc : reachable entorno_mixto
                 (descargar_imagenes_concurrentes "perros" 2 s0) c)
    by apply run_schedule_reachable.
  assert (Hm : main c = MainReturned (Ok tt)) by (vm_compute; reflexivity).
  split; [exact Hc|]. split; [exact Hm|].
  destruct (run_waits_for_every_fetch entorno_mixto "perros" 2 s0 c Hc)
    as (H & _).
  exact (H (Ok tt) Hm).
Defined.

Section Construction.
Variable env : Environment.

#[local] Set Warnings "-clear-no-such-hyp".

Lemma string_app_cons c (a b : string) :
  String c a +:+ b = String c (a +:+ b).
Proof. done. Qed.

Lemma string_app_nil_r (a : string) : a +:+ "" = a.
Proof.
  induction a as [|c a IH]; [done|]. by rewrite string_app_cons, IH.
Qed.

Lemma string_app_assoc (a b c : string) : (a +:+ b) +:+ c = a +:+ (b +:+ c).
Proof.
  induction a as [|x a IH]; [done|]. by rewrite !string_app_cons, IH.
Qed.

(** The chain of a path ends with the path. *)
Lemma path_chain_from_self resto :
  ∀ antes,
    antes +:+ resto ≠ "" →
    endswith_sep (antes +:+ resto) = false →
    antes +:+ resto ∈ path_chain_from antes resto.
Proof.
  induction resto as [|c resto IH]; intros antes Hne Hend.
  - rewrite string_app_nil_r in *. simpl.
    destruct (String.eqb_spec antes ""); [done|]. rewrite Hend. simpl. by left.
  - simpl. apply elem_of_app. right.
    replace (antes +:+ String c resto)
      with ((antes +:+ String c "") +:+ resto) in *
      by (by rewrite string_app_assoc).
    by apply IH.
Qed.

(** The chain of a path holds what stands before each of its separators. *)
Lemma path_chain_from_parent a b :
  ∀ antes,
    antes +:+ a ≠ "" →
    endswith_sep (antes +:+ a) = false →
    antes +:+ a ∈ path_chain_from antes (a +:+ "/" +:+ b).
Proof.
  induction a as [|c a IH]; intros antes Hne Hend.
  - rewrite string_app_nil_r in *.
    change ("" +:+ "/" +:+ b) with (String "/"%char b). simpl.
    destruct (String.eqb_spec antes ""); [done|]. rewrite Hend. simpl. by left.
  - rewrite string_app_cons. simpl. apply elem_of_app. right.
    replace (antes +:+ String c a) with ((antes +:+ String c "") +:+ a) in *
      by (by rewrite string_app_assoc).
    by apply IH.
Qed.

Lemma mkdir_missing_present p q s :
  p ∈ dirs (world s) → mkdir_missing env p q s = (Ok tt, s).
Proof.
  intros Hp. unfold mkdir_missing. unfold_monad. by rewrite decide_True.
Qed.

Lemma mkdir_missing_ok p q s s' :
  mkdir_missing env p q s = (Ok tt, s') →
  self s' = self s ∧ files (world s') = files (world s)
  ∧ stdout (world s') = stdout (world s)
  ∧ dirs (world s') = {[p]} ∪ dirs (world s).
Proof.
  unfold mkdir_missing. unfold_monad.
  destruct (decide (p ∈ dirs (world s))) as [Hp|Hp].
  { intros [= <-]. repeat split; try done. set_solver. }
  destruct (decide (is_Some (files (world s) !! p))); [by destruct q|].
  destruct (mkdir_fails env p); [done|].
  intros [= <-]. done.
Qed.

Lemma mkdir_each_ok chain :
  ∀ s s',
    mkdir_each env chain s = (Ok tt, s') →
    self s' = self s ∧ files (world s') = files (world s)
    ∧ stdout (world s') = stdout (world s)
    ∧ dirs (world s') = list_to_set chain ∪ dirs (world s).
Proof.
  induction chain as [|p chain IH]; intros s s'; simpl; unfold_monad.
  - intros [= <-]. repeat split; try done. set_solver.
  - destruct (mkdir_missing env p (head chain) s) as [[[]|e] s1] eqn:E1; [|done].
    intros H. apply IH in H as (Hs & Hf & Ho & Hd).
    apply mkdir_missing_ok in E1 as (Hs1 & Hf1 & Ho1 & Hd1).
    repeat split; try congruence. rewrite Hd, Hd1. set_solver.
Qed.

Lemma mkdir_each_present chain s :
  (∀ p, p ∈ chain → p ∈ dirs (world s)) →
  mkdir_each env chain s = (Ok tt, s).
Proof.
  induction chain as [|p chain IH]; intros H; [done|].
  simpl. unfold_monad. rewrite mkdir_missing_present by (apply H; by left).
  apply IH. intros p' Hp'. apply H. by right.
Qed.

Lemma mkdir_each_creates chain :
  ∀ s,
    (∀ p, p ∈ chain → p ∉ dirs (world s) →
          files (world s) !! p = None ∧ mkdir_fails env p = None) →
    ∃ s', mkdir_each env chain s = (Ok tt, s').
Proof.
  induction chain as [|p chain IH]; intros s H; [by exists s|].
  simpl. unfold_monad.
  assert (∃ s1, mkdir_missing env p (head chain) s = (Ok tt, s1)) as [s1 E1].
  { unfold mkdir_missing. unfold_monad.
    destruct (decide (p ∈ dirs (world s))) as [Hp|Hp]; [eauto|].
    destruct (H p ltac:(by left) Hp) as [Hf Hm].
    rewrite decide_False by (rewrite Hf; by intros [? ?]).
    rewrite Hm. eauto. }
  rewrite E1. apply IH. intros p' Hp' Hd'.
  apply mkdir_missing_ok in E1 as (_ & Hf1 & _ & Hd1).
  rewrite Hf1. apply H; [by right|]. rewrite Hd1 in Hd'. set_solver.
Qed.

End Construction.

(** C9.  Construction sets the two attributes and makes the directory: a
    construction that succeeds leaves every directory of the chain of the
    path in place (the path itself and what stands before each of its
    separators) and changes nothing else; constructing again with the same
    path on the result succeeds and changes nothing, whatever the system
    would answer to [mkdir].  Construction succeeds whenever no file has
    the name of a missing directory of the chain and the system lets these
    be made.  No method changes the attributes: they are the same after
    [obtener_urls_imagenes], after [descargar_imagen] and in every
    configuration of [descargar_imagenes_concurrentes]. *)
Theorem configuration_is_immutable_and_directory_made env :
  (∀ k d w me w',
     __init__ env k d w = (Ok me, w') →
     me = mkPixabayDownloader k d
     ∧ dirs w' = list_to_set (path_chain d) ∪ dirs w
     ∧ files w' = files w ∧ stdout w' = stdout w
     ∧ (endswith_sep d = false → d ∈ dirs w')
     ∧ (∀ a b, d = a +:+ "/" +:+ b → a ≠ "" → endswith_sep a = false →
               a ∈ dirs w')
     ∧ ∀ env2 k2, __init__ env2 k2 d w' = (Ok (mkPixabayDownloader k2 d), w')) ∧
  (∀ k d w,
     d ≠ "" →
     (∀ p, p ∈ path_chain d → p ∉ dirs w →
           files w !! p = None ∧ mkdir_fails env p = None) →
     ∃ w', __init__ env k d w = (Ok (mkPixabayDownloader k d), w')) ∧
  (∀ q n s, self (snd (obtener_urls_imagenes env q n s)) = self s) ∧
  (∀ u f s, self (snd (descargar_imagen env u f s)) = self s) ∧
  (∀ q n s c, reachable env (descargar_imagenes_concurrentes q n s) c →
              self (shared c) = self s).
Proof.
  split; [|split; [|split; [|split]]].
  - intros k d w me w'. unfold __init__, makedirs_exist_ok.
    destruct (String.eqb_spec d "") as [->|Hd]; [done|].
    destruct (mkdir_each env (path_chain d) _) as [[[]|e] s1] eqn:E; [|done].
    intros [= <- <-].
    pose proof (mkdir_each_ok env _ _ _ E) as (Hs & Hf & Ho & Hdirs).
    simpl in *. split; [done|]. split; [done|]. split; [done|]. split; [done|].
    split; [|split].
    + intros Hend. rewrite Hdirs. apply elem_of_union_l, elem_of_list_to_set.
      apply (path_chain_from_self d ""); done.
    + intros a b -> Ha Hend. rewrite Hdirs.
      apply elem_of_union_l, elem_of_list_to_set.
      apply (path_chain_from_parent a b ""); done.
    + intros env2 k2.
      rewrite mkdir_each_present; [by destruct s1 as [? []]|].
      intros p Hp. simpl. rewrite Hdirs.
      by apply elem_of_union_l, elem_of_list_to_set.
  - intros k d w Hd Hfree. unfold __init__, makedirs_exist_ok.
    rewrite <- String.eqb_neq in Hd. rewrite Hd.
    destruct (mkdir_each_creates env (path_chain d)
                (mkState (mkPixabayDownloader k d) w) Hfree) as [s' Hs'].
    rewrite Hs'. apply mkdir_each_ok in Hs' as (Hs & _). simpl in Hs.
    rewrite Hs. eauto.
  - apply obtener_self.
  - apply descargar_self.
  - intros q n s c Hc. by apply reachable_self in Hc.
Qed.

Lemma configuration_is_immutable_and_directory_made_witness :
  let env := entorno (inl (ConnectionError "")) (inl (ConnectionError "")) in
  let w' := mkWorld ∅ (list_to_set ["a"; "a/b"] ∪ ∅) [] in
  __init__ env "K" "a/b" mundo0 = (Ok (mkPixabayDownloader "K" "a/b"), w') ∧
  "a/b" ∈ dirs w' ∧ "a" ∈ dirs w' ∧
  __init__ (entorno_sin_permiso (inl (ConnectionError ""))) "K2" "a/b" w'
  = (Ok (mkPixabayDownloader "K2" "a/b"), w').
Proof.
  intros env w'.
  assert (H0 : __init__ env "K" "a/b" mundo0
               = (Ok (mkPixabayDownloader "K" "a/b"), w')).
  { vm_compute. reflexivity. }
  destruct (configuration_is_immutable_and_directory_made env) as (H & _).
  destruct (H "K" "a/b" mundo0 _ _ H0) as (_ & _ & _ & _ & Hd & Hp & Hagain).
  split; [exact H0|]. split; [by apply Hd|]. split.
  - apply (Hp "a" "b"); done.
  - apply Hagain.
Defined.

Section BodyCut.
Variable env : Environment.


End BodyCut.




(** ** The scenarios of the specification, run *)

Example two_downloads :
  let c := run_schedule entorno_dos horario_alterno
             (descargar_imagenes_concurrentes "perros" 2 s0) in
  main c = MainReturned (Ok tt) ∧
  map_to_list (files (world (shared c)))
  ≡ₚ [("imagenes_descargadas/imagen_1.jpg", ["a"; "1"]%byte);
      ("imagenes_descargadas/imagen_2.jpg", ["b"; "2"]%byte)] ∧
  last (stdout (world (shared c))) = Some all_done_line.
Proof.
  split; [vm_compute; reflexivity|]. split; [|vm_compute; reflexivity].
  vm_compute. reflexivity.
Qed.

Example empty_search :
  let env := entorno (inr (respuesta_api 200 (Some (PyDict [("hits", PyList [])]))))
                     (inl (ConnectionError "")) in
  let c := run_schedule env [None; None; Some 0%nat]
             (descargar_imagenes_concurrentes "perros" 2 s0) in
  main c = MainReturned (Ok tt) ∧ pool c = [] ∧
  files (world (shared c)) = ∅ ∧
  stdout (world (shared c)) = [no_results_line].
Proof. repeat split; vm_compute; reflexivity. Qed.

Example one_failed_download :
  let env := entorno (inr (respuesta_api 200
                             (Some (PyDict [("hits", PyList [hit "http://x/a.jpg"])]))))
                     (inl (ConnectionError "Connection refused")) in
  let c := run_schedule env [None; None; None; None; Some 0; Some 0; None; None]%nat
             (descargar_imagenes_concurrentes "perros" 1 s0) in
  main c = MainReturned (Ok tt) ∧
  files (world (shared c)) = ∅ ∧
  stdout (world (shared c))
  = ["Error descargando imagen_1.jpg: Connection refused"; all_done_line].
Proof. repeat split; vm_compute; reflexivity. Qed.

Example programa_makes_directory :
  let env := entorno (inl (ConnectionError "")) (inl (ConnectionError "")) in
  ∃ c w', programa env mundo0 = (Ok c, w')
          ∧ main c = MainSearch "perros" 50
          ∧ elements (dirs w') = ["imagenes_descargadas"].
Proof. do 2 eexists. repeat split; vm_compute; reflexivity. Qed.

(** ** The names and the paths of the positions *)

Section Names.

Lemma string_length_app (a b : string) :
  String.length (a +:+ b) = (String.length a + String.length b)%nat.
Proof.
  induction a as [|c a IH]; [done|]. rewrite string_app_cons. simpl.
  by rewrite IH.
Qed.

Lemma string_app_inj_r (a b c : string) : a +:+ c = b +:+ c → a = b.
Proof.
  revert b. induction a as [|x a IH]; intros [|y b] H.
  - done.
  - change ("" +:+ c) with c in H. apply (f_equal String.length) in H.
    rewrite string_app_cons in H. simpl in H.
    rewrite string_length_app in H. lia.
  - change ("" +:+ c) with c in H. apply (f_equal String.length) in H.
    rewrite string_app_cons in H. simpl in H.
    rewrite string_length_app in H. lia.
  - rewrite !string_app_cons in H. injection H as -> H. f_equal. by apply IH.
Qed.

Lemma nombre_archivo_inj i j : nombre_archivo i = nombre_archivo j → i = j.
Proof.
  unfold nombre_archivo. intros H.
  apply (inj (String.app "imagen_")) in H.
  apply string_app_inj_r in H. apply (inj pretty) in H. lia.
Qed.

Lemma nombre_archivo_relative i : startswith_sep (nombre_archivo i) = false.
Proof. done. Qed.

Lemma os_path_join_inj d f1 f2 :
  startswith_sep f1 = false → startswith_sep f2 = false →
  os_path_join d f1 = os_path_join d f2 → f1 = f2.
Proof.
  unfold os_path_join. intros -> ->.
  destruct (String.eqb d ""); [done|].
  destruct (endswith_sep d); intros H.
  - by apply (inj (String.app d)) in H.
  - apply (inj (String.app d)) in H. by apply (inj (String.app "/")) in H.
Qed.

Lemma ruta_posicion_inj me i j :
  ruta_posicion me i = ruta_posicion me j → i = j.
Proof.
  intros H. apply nombre_archivo_inj.
  by eapply os_path_join_inj; [apply nombre_archivo_relative..|].
Qed.

End Names.

(** ** The disk during a call *)

Section FilesFacts.
Variable env : Environment.

Lemma thread_step_wf me t s pc s' :
  self s = me → wf_pc me t →
  thread_step env t s = Some (pc, s') →
  wf_pc me (mkThread (t_url t) (t_nombre t) pc).
Proof.
  intros Hself Hwf. destruct t as [u f pc0]. unfold thread_step, wf_pc in *.
  simpl in *.
  destruct pc0 as [|r|r ruta k [|c cs]| |e|res]; try done.
  - unfold requests_get, raise_for_status. unfold_monad.
    destruct (net env _) as [e|r]; simpl; [by intros [= <- _]|].
    destruct (http_error_msg r); simpl; by intros [= <- _].
  - unfold open_wb. unfold_monad. rewrite Hself.
    destruct (open_fails env _); simpl; by intros [= <- _].
  - unfold end_of_body. unfold_monad.
    destruct (body_error r); simpl; by intros [= <- _].
  - unfold file_write. unfold_monad.
    destruct (write_fails env ruta k); simpl; by intros [= <- _].
  - unfold_monad. simpl. by intros [= <- _].
  - unfold_monad. simpl. by intros [= <- _].
Qed.

(** A step of a thread leaves the directories and every file but its own. *)
Lemma thread_step_frame me t s pc s' :
  self s = me → wf_pc me t →
  thread_step env t s = Some (pc, s') →
  dirs (world s') = dirs (world s)
  ∧ ∀ p, p ≠ ruta_de me t → files (world s') !! p = files (world s) !! p.
Proof.
  intros Hself Hwf. destruct t as [u f pc0].
  unfold thread_step, wf_pc, ruta_de in *. simpl in *.
  destruct pc0 as [|r|r ruta k [|c cs]| |e|res]; try done.
  - unfold requests_get, raise_for_status. unfold_monad.
    destruct (net env _) as [e|r]; simpl; [by intros [= _ <-]|].
    destruct (http_error_msg r); simpl; by intros [= _ <-].
  - unfold open_wb. unfold_monad. rewrite Hself.
    destruct (open_fails env _); simpl; intros [= _ <-]; [done|].
    simpl. split; [done|]. intros p Hp. by rewrite lookup_insert_ne.
  - unfold end_of_body. unfold_monad.
    destruct (body_error r); simpl; by intros [= _ <-].
  - unfold file_write. unfold_monad. subst ruta.
    destruct (write_fails env _ k); simpl; intros [= _ <-]; [done|].
    simpl. split; [done|]. intros p Hp. by rewrite lookup_insert_ne.
  - unfold_monad. simpl. by intros [= _ <-].
  - unfold_monad. simpl. by intros [= _ <-].
Qed.

(** What a step of a thread does to its file depends on the attributes of
    the instance and on that file only. *)
Lemma thread_step_agree me t s1 s2 :
  self s1 = me → self s2 = me → wf_pc me t →
  files (world s1) !! ruta_de me t = files (world s2) !! ruta_de me t →
  match thread_step env t s1, thread_step env t s2 with
  | Some (pc1, s1'), Some (pc2, s2') =>
      pc1 = pc2
      ∧ files (world s1') !! ruta_de me t = files (world s2') !! ruta_de me t
  | None, None => True
  | _, _ => False
  end.
Proof.
  intros H1 H2 Hwf Hf. destruct t as [u f pc0].
  unfold thread_step, wf_pc, ruta_de in *. simpl in *.
  destruct pc0 as [|r|r ruta k [|c cs]| |e|res]; try done.
  - unfold requests_get, raise_for_status. unfold_monad.
    destruct (net env _) as [e|r]; simpl; [done|].
    by destruct (http_error_msg r).
  - unfold open_wb. unfold_monad. rewrite H1, H2.
    destruct (open_fails env _); simpl; [done|].
    by rewrite !lookup_insert_eq.
  - unfold end_of_body. unfold_monad. by destruct (body_error r).
  - unfold file_write. unfold_monad. subst ruta.
    destruct (write_fails env _ k); simpl; [done|].
    by rewrite !lookup_insert_eq, Hf.
Qed.

Lemma thread_step_keeps_self t s pc s' :
  thread_step env t s = Some (pc, s') → self s' = self s.
Proof.
  intros Ht.
  destruct (thread_step_progress env t s (thread_step_Some_inv env t _ _ _ Ht))
    as (pc' & s'' & Ht' & Hs & _).
  rewrite Ht in Ht'. by simplify_eq.
Qed.

Lemma thread_run_agree me k :
  ∀ t s1 s2,
    self s1 = me → self s2 = me → wf_pc me t →
    files (world s1) !! ruta_de me t = files (world s2) !! ruta_de me t →
    files (world (snd (thread_run env k t s1))) !! ruta_de me t
    = files (world (snd (thread_run env k t s2))) !! ruta_de me t.
Proof.
  induction k as [|k IH]; intros t s1 s2 H1 H2 Hwf Hf; [done|].
  rewrite !thread_run_S.
  pose proof (thread_step_agree me t s1 s2 H1 H2 Hwf Hf) as H.
  destruct (thread_step env t s1) as [[pc1 s1']|] eqn:E1,
           (thread_step env t s2) as [[pc2 s2']|] eqn:E2; try done.
  destruct H as [<- Hf'].
  apply (IH (mkThread (t_url t) (t_nombre t) pc1)).
  - apply thread_step_keeps_self in E1. congruence.
  - apply thread_step_keeps_self in E2. congruence.
  - by eapply thread_step_wf.
  - done.
Qed.

(** Fuel beyond [remaining] changes nothing. *)
Lemma thread_run_enough k1 :
  ∀ k2 t s,
    (remaining env t ≤ k1)%nat → (remaining env t ≤ k2)%nat →
    thread_run env k1 t s = thread_run env k2 t s.
Proof.
  induction k1 as [|k1 IH]; intros k2 t s Hk1 Hk2.
  - destruct (is_finished t) eqn:Hf.
    + destruct k2; [done|]. rewrite thread_run_S.
      by rewrite thread_step_finished.
    + destruct (thread_step_progress env t s Hf) as (?&?&_&_&?). lia.
  - destruct (is_finished t) eqn:Hf.
    + rewrite thread_run_S, thread_step_finished by done.
      destruct k2; [done|]. by rewrite thread_run_S, thread_step_finished.
    + destruct (thread_step_progress env t s Hf) as (pc & s' & Hs & _ & Hlt).
      destruct k2 as [|k2]; [lia|].
      rewrite !thread_run_S, Hs. apply IH; lia.
Qed.

Lemma alone_file_step me t s pc s' :
  thread_step env t s = Some (pc, s') →
  alone_file env me (mkThread (t_url t) (t_nombre t) pc) s'
  = alone_file env me t s.
Proof.
  intros Hs. unfold alone_file.
  destruct (thread_step_progress env t s (thread_step_Some_inv env t _ _ _ Hs))
    as (pc' & s'' & Hs' & _ & Hlt).
  rewrite Hs in Hs'. simplify_eq.
  destruct (remaining env t) as [|m] eqn:Hm; [lia|].
  rewrite thread_run_S, Hs.
  by rewrite (thread_run_enough m (remaining env (mkThread (t_url t) (t_nombre t) pc')))
    by lia.
Qed.

Lemma alone_file_agree me t s1 s2 :
  self s1 = me → self s2 = me → wf_pc me t →
  files (world s1) !! ruta_de me t = files (world s2) !! ruta_de me t →
  alone_file env me t s1 = alone_file env me t s2.
Proof. intros. unfold alone_file. by apply thread_run_agree. Qed.

Lemma alone_file_fresh me u f s :
  alone_file env me (mkThread u f AtGet) s
  = files (world (snd (descargar_imagen env u f s)))
    !! os_path_join (directorio_imagenes me) f.
Proof. unfold alone_file. by rewrite thread_alone_is_descargar_imagen. Qed.

Lemma alone_file_finished me t s :
  is_finished t = true →
  alone_file env me t s = files (world s) !! ruta_de me t.
Proof.
  intros Hf. unfold alone_file. destruct (remaining env t); [done|].
  by rewrite thread_run_S, thread_step_finished.
Qed.

Lemma obtener_world q n s :
  files (world (snd (obtener_urls_imagenes env q n s))) = files (world s)
  ∧ dirs (world (snd (obtener_urls_imagenes env q n s))) = dirs (world s).
Proof.
  destruct (net env (search_request (self s) q n)) as [e|r] eqn:Hnet.
  { by rewrite (obtener_net_error env q n s e Hnet). }
  destruct (http_error_msg r) as [m|] eqn:Hm.
  { by rewrite (obtener_http_error env q n s r m Hnet Hm). }
  destruct (json_value r) as [datos|] eqn:Hj.
  - by rewrite (obtener_json env q n s r datos Hnet Hm Hj).
  - destruct (obtener_not_json env q n s r Hnet Hm Hj) as [m ->]. done.
Qed.

End FilesFacts.

Section FilesInvariant.
Variable env : Environment.

Lemma FilesInv_step q n s c c' who :
  reachable env (descargar_imagenes_concurrentes q n s) c →
  FilesInv env s c →
  step env c who = Some c' →
  FilesInv env s c'.
Proof.
  intros Hc (Hd & Hother & Hth) Hstep.
  pose proof (reachable_self env _ _ Hc) as Hself. simpl in Hself.
  pose proof (Inv_reachable env q n s c Hc) as HI.
  destruct who as [i|]; simpl in Hstep.
  - destruct (pool c !! i) as [ti|] eqn:Hi; [|done]. simpl in Hstep.
    destruct (thread_step env ti (shared c)) as [[pc s']|] eqn:Ht; [|done].
    simpl in Hstep. simplify_eq.
    destruct (Hth i ti Hi) as (Hname & Hwf & Halone).
    destruct (thread_step_frame env (self s) ti (shared c) pc s' Hself Hwf Ht)
      as [Hd' Hframe].
    assert (Hruta : ruta_de (self s) ti = ruta_posicion (self s) i)
      by (unfold ruta_de, ruta_posicion; by rewrite Hname).
    split; [simpl; congruence|]. split; simpl.
    + intros p Hp. rewrite length_insert in Hp. rewrite Hframe; [by apply Hother|].
      rewrite Hruta. apply Hp. by eapply lookup_lt_Some.
    + intros j t Hj. destruct (decide (j = i)) as [->|Hne].
      * rewrite list_lookup_insert_eq in Hj by by eapply lookup_lt_Some.
        simplify_eq. simpl. split; [done|]. split.
        -- by eapply thread_step_wf.
        -- rewrite (alone_file_step env (self s) ti (shared c) pc s' Ht). done.
      * rewrite list_lookup_insert_ne in Hj by done.
        destruct (Hth j t Hj) as (Hname' & Hwf' & Halone').
        split; [done|]. split; [done|]. rewrite <- Halone'.
        apply alone_file_agree; try done.
        -- apply thread_step_keeps_self in Ht. congruence.
        -- apply Hframe. rewrite Hruta. unfold ruta_de. rewrite Hname'.
           intros Heq. by apply ruta_posicion_inj in Heq.
  - unfold main_step in Hstep. unfold Inv in HI. unfold FilesInv.
    destruct (main c) as [q' n'|k [|u pend] hilos|[|h pend]|r] eqn:Hm.
    + subst c. simpl in *. injection Hm as <- <-.
      destruct (obtener_world env q n s) as [Hf Hdd].
      destruct (obtener_urls_imagenes env q n s) as [[[|u urls]|e] s1];
        simpl in Hf, Hdd; injection Hstep as <-; simpl;
        (split; [done|]); (split; [|done]); intros p _; simpl; by rewrite Hf.
    + simplify_eq. done.
    + destruct HI as (urls & _ & _ & _ & Hk & _). simplify_eq. simpl.
      split; [done|]. split.
      * intros p Hp. apply Hother. intros j Hj. apply Hp.
        rewrite length_app. simpl. lia.
      * intros j t Hj. apply lookup_app_Some in Hj as [Hj|[Hge Hj]]; [eauto|].
        apply list_lookup_singleton_Some in Hj as [Hj0 <-]. simpl.
        assert (j = length (pool c)) as -> by lia.
        split; [done|]. split; [done|].
        etrans;
          [|exact (alone_file_fresh env (self s) u
                     (nombre_archivo (length (pool c))) s)].
        apply alone_file_agree; try done.
        apply Hother. intros j' Hj' Heq. unfold ruta_de in Heq. simpl in Heq.
        apply ruta_posicion_inj in Heq. lia.
    + simplify_eq. simpl.
      split; [done|]. split; [done|]. intros j t Hj.
      destruct (Hth j t Hj) as (Hname & Hwf & Halone).
      split; [done|]. split; [done|]. rewrite <- Halone.
      by apply alone_file_agree.
    + destruct (pool c !! h) as [th|]; [|done].
      destruct (is_finished th); [|done]. simplify_eq. done.
    + done.
Qed.

Lemma FilesInv_reachable q n s c :
  reachable env (descargar_imagenes_concurrentes q n s) c →
  FilesInv env s c.
Proof.
  apply (rtc_ind_r (fun c => FilesInv env s c)
           (descargar_imagenes_concurrentes q n s)).
  - split; [done|]. split; [done|]. intros j t Hj. done.
  - intros c1 c2 Hc1 [who Hstep] IH. by eapply FilesInv_step.
Qed.

End FilesInvariant.

Lemma tareas_names urls :
  map snd (tareas urls) = map nombre_archivo (seq 0 (length urls)).
Proof.
  unfold tareas. rewrite fmap_imap. apply list_eq. intros i.
  rewrite list_lookup_imap, list_lookup_fmap.
  destruct (urls !! i) as [u|] eqn:Hi; simpl.
  - apply lookup_lt_Some in Hi. by rewrite lookup_seq_lt.
  - apply lookup_ge_None in Hi. by rewrite lookup_seq_ge.
Qed.

(** X1.  Two positions never share a file: the names [imagen_<i+1>.jpg]
    of different positions are different, and so are the paths they are
    joined to under the directory of the instance, whatever that directory
    is.  The names and the paths of the tasks of a call have no
    repetition. *)
Theorem distinct_positions_distinct_files me urls :
  (∀ i j, nombre_archivo i = nombre_archivo j → i = j) ∧
  (∀ i j, ruta_posicion me i = ruta_posicion me j → i = j) ∧
  NoDup (map snd (tareas urls)) ∧
  NoDup (map (fun task => os_path_join (directorio_imagenes me) (snd task))
             (tareas urls)).
Proof.
  split; [apply nombre_archivo_inj|]. split; [apply ruta_posicion_inj|].
  assert (Hn : NoDup (map (ruta_posicion me) (seq 0 (length urls)))).
  { apply NoDup_fmap_2; [|apply NoDup_seq].
    intros i j. apply ruta_posicion_inj. }
  split.
  - rewrite tareas_names. apply NoDup_fmap_2; [|apply NoDup_seq].
    intros i j. apply nombre_archivo_inj.
  - change (NoDup (map (os_path_join (directorio_imagenes me) ∘ snd)
                       (tareas urls))).
    rewrite (list_fmap_compose snd), tareas_names, <- list_fmap_compose.
    exact Hn.
Qed.

Lemma descargar_success env u f s r :
  net env (fetch_request u) = inr r →
  ¬ (400 <= status_code r < 600)%Z →
  body_error r = None →
  let ruta := os_path_join (directorio_imagenes (self s)) f in
  open_fails env ruta = None →
  (∀ k, write_fails env ruta k = None) →
  descargar_imagen env u f s
  = (Ok tt, printed (with_file s ruta (content r)) (fetch_ok_line f)).
Proof.
  intros Hnet Hst Hbody ruta Ho Hw. apply http_error_msg_None in Hst.
  rewrite (descargar_after_open env u f s r Hnet Hst Ho). fold ruta.
  rewrite (write_chunks_all env r ruta _ 0 _ []).
  - unfold end_of_body. rewrite Hbody. unfold_monad. simpl.
    by rewrite with_file_twice, iter_content_concat by apply chunk_size_pos.
  - simpl. by rewrite lookup_insert_eq.
  - intros j _. apply Hw.
Qed.

(** X2.  Whatever the order in which the threads run, when the call of
    [descargar_imagenes_concurrentes] has returned the disk is as if each
    fetch had run on its own on the disk of the start: the file of every
    position holds what [descargar_imagen] for the address and the name of
    that position leaves in it (the whole body, a part of it, or what was
    there before), every other file is as it was, and no directory has
    changed.  In particular the file of a position whose request is
    answered with a status that [raise_for_status] lets pass, whose body
    arrives whole and whose [open] and [write] calls succeed holds exactly
    that body, whatever happened at the other positions. *)
Theorem run_leaves_each_file_as_fetch_alone env q n s urls s1 c r :
  obtener_urls_imagenes env q n s = (Ok urls, s1) →
  reachable env (descargar_imagenes_concurrentes q n s) c →
  main c = MainReturned r →
  dirs (world (shared c)) = dirs (world s) ∧
  (∀ j u, urls !! j = Some u →
          files (world (shared c)) !! ruta_posicion (self s) j
          = files (world (snd (descargar_imagen env u (nombre_archivo j) s)))
            !! ruta_posicion (self s) j) ∧
  (∀ p, (∀ j, (j < length urls)%nat → p ≠ ruta_posicion (self s) j) →
        files (world (shared c)) !! p = files (world s) !! p) ∧
  (∀ j u resp,
     urls !! j = Some u →
     net env (fetch_request u) = inr resp →
     ¬ (400 <= status_code resp < 600)%Z →
     body_error resp = None →
     open_fails env (ruta_posicion (self s) j) = None →
     (∀ k, write_fails env (ruta_posicion (self s) j) k = None) →
     files (world (shared c)) !! ruta_posicion (self s) j = Some (content resp)).
Proof.
  intros Hs Hc Hm.
  cut (dirs (world (shared c)) = dirs (world s) ∧
    (∀ j u, urls !! j = Some u →
          files (world (shared c)) !! ruta_posicion (self s) j
          = files (world (snd (descargar_imagen env u (nombre_archivo j) s)))
            !! ruta_posicion (self s) j) ∧
    (∀ p, (∀ j, (j < length urls)%nat → p ≠ ruta_posicion (self s) j) →
        files (world (shared c)) !! p = files (world s) !! p)).
  { intros (H1 & H2 & H3). split; [done|]. split; [done|]. split; [done|].
    intros j u resp Hj Hnet Hst Hb Ho Hw. rewrite (H2 j u Hj).
    rewrite (descargar_success env u (nombre_archivo j) s resp Hnet Hst Hb Ho Hw).
    simpl. by rewrite lookup_insert_eq. }
  pose proof (Inv_reachable env q n s c Hc) as HI. unfold Inv in HI.
  rewrite Hm, Hs in HI. simpl in HI.
  destruct (FilesInv_reachable env q n s c Hc) as (Hd & Hother & Hth).
  split; [done|].
  destruct HI as [[Hp [-> _]]|(urls' & [= <-] & _ & _ & Ha & Hfin)].
  - split; [done|]. intros p _. apply Hother. rewrite Hp. simpl. lia.
  - assert (Hlen : length (pool c) = length urls).
    { apply (f_equal length) in Ha.
      by rewrite length_map, tareas_length in Ha. }
    split.
    + intros j u Hj.
      assert (map args (pool c) !! j = Some (u, nombre_archivo j)) as Hj'
        by (rewrite Ha; by apply tareas_lookup).
      apply list_lookup_fmap_Some in Hj' as (t & Hargs & Ht).
      unfold args in Hargs. injection Hargs as Hu Hn.
      destruct (Hth j t Ht) as (_ & _ & Halone).
      rewrite Forall_lookup in Hfin.
      rewrite (alone_file_finished env (self s) t (shared c) (Hfin j t Ht))
        in Halone.
      unfold ruta_de in Halone. rewrite <- Hu, <- Hn in Halone. exact Halone.
    + intros p Hp. apply Hother. by rewrite Hlen.
Qed.

Lemma run_leaves_each_file_as_fetch_alone_witness :
  let c := run_schedule entorno_dos horario_alterno
             (descargar_imagenes_concurrentes "perros" 2 s0) in
  obtener_urls_imagenes entorno_dos "perros" 2 s0
  = (Ok [PyStr "http://x/a.jpg"; PyStr "http://x/b.jpg"], s0) ∧
  main c = MainReturned (Ok tt) ∧
  files (world (shared c)) !! ruta_posicion (self s0) 1
  = files (world (snd (descargar_imagen entorno_dos (PyStr "http://x/b.jpg")
                         (nombre_archivo 1) s0)))
    !! ruta_posicion (self s0) 1.
Proof.
  intros c.
  assert (Hs : obtener_urls_imagenes entorno_dos "perros" 2 s0
               = (Ok [PyStr "http://x/a.jpg"; PyStr "http://x/b.jpg"], s0))
    by reflexivity.
  assert (Hc : reachable entorno_dos
                 (descargar_imagenes_concurrentes "perros" 2 s0) c)
    by apply run_schedule_reachable.
  assert (Hm : main c = MainReturned (Ok tt)) by (vm_compute; reflexivity).
  split; [exact Hs|]. split; [exact Hm|].
  destruct (run_leaves_each_file_as_fetch_alone entorno_dos "perros" 2 s0
              _ s0 c (Ok tt) Hs Hc Hm) as (_ & H & _ & _).
  apply (H 1%nat (PyStr "http://x/b.jpg")). reflexivity.
Defined.

(** ** Every call ends *)

Section Termination.
Variable env : Environment.

Lemma sum_list_with_insert_lt {A} (f : A → nat) (l : list A) i x y :
  l !! i = Some x → (f y < f x)%nat →
  (sum_list_with f (<[i := y]> l) < sum_list_with f l)%nat.
Proof.
  revert i. induction l as [|a l IH]; intros [|i] Hi Hlt; simplify_eq/=.
  - lia.
  - specialize (IH i Hi Hlt). lia.
Qed.

(** What the search returns depends on the attributes of the instance and
    on the network only. *)
Lemma obtener_result_self q n s1 s2 :
  self s1 = self s2 →
  fst (obtener_urls_imagenes env q n s1) = fst (obtener_urls_imagenes env q n s2).
Proof.
  intros Hself.
  destruct (net env (search_request (self s1) q n)) as [e|r] eqn:Hnet.
  { rewrite (obtener_net_error env q n s1 e Hnet).
    rewrite Hself in Hnet. by rewrite (obtener_net_error env q n s2 e Hnet). }
  destruct (http_error_msg r) as [m|] eqn:Hm.
  { rewrite (obtener_http_error env q n s1 r m Hnet Hm).
    rewrite Hself in Hnet.
    by rewrite (obtener_http_error env q n s2 r m Hnet Hm). }
  destruct (json_value r) as [datos|] eqn:Hj.
  - rewrite (obtener_json env q n s1 r datos Hnet Hm Hj).
    rewrite Hself in Hnet.
    rewrite (obtener_json env q n s2 r datos Hnet Hm Hj). simpl.
    unfold extraer. unfold_monad.
    pose proof (getitem_state datos "hits" s1) as G1.
    pose proof (getitem_state datos "hits" s2) as G2.
    destruct datos as [| | | | | |items]; simpl; unfold_monad; try done.
    destruct (dict_get items "hits") as [hits|]; [|done].
    assert (Hmap : ∀ l,
      fst (mapM (fun imagen => getitem imagen "largeImageURL") l s1)
      = fst (mapM (fun imagen => getitem imagen "largeImageURL") l s2)).
    { induction l as [|a l IH]; [done|]. simpl. unfold_monad.
      pose proof (mapM_getitem_state "largeImageURL" l s1) as M1.
      pose proof (mapM_getitem_state "largeImageURL" l s2) as M2.
      destruct a as [| | | | | |d]; simpl; unfold_monad; try done.
      destruct (dict_get d "largeImageURL"); [|done].
      destruct (mapM _ l s1) as [[b1|e1] t1], (mapM _ l s2) as [[b2|e2] t2];
        simpl in *; by simplify_eq. }
    destruct hits as [| | | |t|l|d]; simpl; unfold_monad; try done.
    + specialize (Hmap (chars t)).
      destruct (mapM _ (chars t) s1) as [[b1|e1] t1],
               (mapM _ (chars t) s2) as [[b2|e2] t2]; simpl in *; by simplify_eq.
    + specialize (Hmap l).
      destruct (mapM _ l s1) as [[b1|e1] t1],
               (mapM _ l s2) as [[b2|e2] t2]; simpl in *; by simplify_eq.
    + specialize (Hmap (map (fun kv => PyStr (fst kv)) d)).
      destruct (mapM _ _ s1) as [[b1|e1] t1],
               (mapM _ _ s2) as [[b2|e2] t2]; simpl in *; by simplify_eq.
  - destruct (obtener_not_json env q n s1 r Hnet Hm Hj) as [m ->].
    rewrite Hself in Hnet.
    destruct (obtener_not_json env q n s2 r Hnet Hm Hj) as [m' ->]. done.
Qed.

(** Every step brings the end nearer. *)
Lemma step_decreases c c' who :
  step env c who = Some c' → (cost env c' < cost env c)%nat.
Proof.
  unfold cost. destruct who as [i|]; simpl.
  - destruct (pool c !! i) as [t|] eqn:Hi; [|done]. simpl.
    destruct (thread_step env t (shared c)) as [[pc s']|] eqn:Ht; [|done].
    simpl. intros [= <-]. simpl.
    destruct (thread_step_progress env t (shared c)
                (thread_step_Some_inv env t _ _ _ Ht))
      as (pc' & s'' & Ht' & Hself & Hlt).
    rewrite Ht in Ht'. simplify_eq.
    pose proof (sum_list_with_insert_lt (remaining env) (pool c) i t _ Hi Hlt).
    assert (main_cost env
              (mkConfig (main c)
                 (<[i := mkThread (t_url t) (t_nombre t) pc']> (pool c)) s'')
            = main_cost env c) as ->; [|lia].
    unfold main_cost. simpl. destruct (main c); try done.
    by rewrite (obtener_result_self _ _ s'' (shared c)).
  - unfold main_step, main_cost.
    destruct (main c) as [q n|k [|u pend] hilos|[|h pend]|r] eqn:Hm.
    + destruct (obtener_urls_imagenes env q n (shared c))
        as [[[|u urls]|e] s1]; intros [= <-]; simpl; lia.
    + intros [= <-]. simpl. lia.
    + intros [= <-]. simpl. rewrite sum_list_with_app, length_app. simpl.
      change (remaining env (mkThread u (nombre_archivo k) AtGet))
        with (remaining env (mkThread u "" AtGet)).
      lia.
    + intros [= <-]. simpl. lia.
    + destruct (pool c !! h) as [t|]; [|done].
      destruct (is_finished t); [|done]. intros [= <-]. simpl. lia.
    + done.
Qed.

Lemma nsteps_bounded k :
  ∀ c c', nsteps (step_rel env) k c c' → (k + cost env c' ≤ cost env c)%nat.
Proof.
  induction k as [|k IH]; intros c c' H.
  - inversion H; subst. lia.
  - inversion H as [|? ? c1 ? [who Hstep] Hrest]; subst.
    apply IH in Hrest. apply step_decreases in Hstep. lia.
Qed.

(** A configuration of a call in which nobody can move has returned. *)
Lemma stuck_is_returned q n s c :
  reachable env (descargar_imagenes_concurrentes q n s) c →
  (∀ who, step env c who = None) →
  ∃ r, main c = MainReturned r.
Proof.
  intros Hc Hstuck. pose proof (Inv_reachable env q n s c Hc) as HI.
  unfold Inv in HI. pose proof (Hstuck None) as Hmain. simpl in Hmain.
  unfold main_step in Hmain.
  destruct (main c) as [q' n'|i [|u pend] hilos|[|h pend]|r] eqn:Hm;
    try done.
  - by destruct (obtener_urls_imagenes env q' n' (shared c))
      as [[[|u urls]|e] s1].
  - destruct HI as (urls & k & _ & _ & _ & Hp & Hk & _).
    destruct (length (pool c) - k)%nat as [|m] eqn:E; [done|].
    simpl in Hp. injection Hp as -> _.
    destruct (lookup_lt_is_Some_2 (pool c) k ltac:(lia)) as [t Ht].
    rewrite Ht in Hmain. destruct (is_finished t) eqn:Hf; [done|].
    destruct (step_thread_progress env c k t Ht Hf) as (c' & Hs & _).
    by rewrite Hstuck in Hs.
  - eauto.
Qed.

End Termination.

(** X3.  As long as every call of the libraries answers (the requests
    are made without a time limit, and an answer is a response or an
    exception), a call of [descargar_imagenes_concurrentes] ends under
    every schedule: no execution takes more steps than [cost] counts for
    the start (the search, and for each address the start of its thread,
    the steps of the thread, one for each chunk of the body among them,
    and the [join]), every step brings that count down, and a
    configuration in which neither the caller nor a thread can move has
    returned: no [join] waits for ever. *)
Theorem run_terminates_under_every_schedule env q n s :
  (∀ k c, nsteps (step_rel env) k (descargar_imagenes_concurrentes q n s) c →
          (k + cost env c ≤ cost env (descargar_imagenes_concurrentes q n s))%nat) ∧
  (∀ c c' who, step env c who = Some c' → (cost env c' < cost env c)%nat) ∧
  (∀ c, reachable env (descargar_imagenes_concurrentes q n s) c →
        (∀ who, step env c who = None) →
        ∃ r, main c = MainReturned r).
Proof.
  split; [|split].
  - intros k c. apply nsteps_bounded.
  - apply step_decreases.
  - apply stuck_is_returned.
Qed.

(** ** The screen during a call *)

Section Screen.
Variable env : Environment.








End Screen.



(** ** Edges of the search and of the fetch *)

(** X5.  When the response passes [raise_for_status] and its list of hits
    is empty, the search returns the empty list and prints nothing, and
    [descargar_imagenes_concurrentes] prints the line of line 124 and
    returns: no thread is ever made and no file or directory changes. *)
Theorem empty_hits_take_no_results_path env q n s r items :
  net env (search_request (self s) q n) = inr r →
  ¬ (400 <= status_code r < 600)%Z →
  json_value r = Some (PyDict items) →
  dict_get items "hits" = Some (PyList []) →
  obtener_urls_imagenes env q n s = (Ok [], s) ∧
  let c0 := descargar_imagenes_concurrentes q n s in
  let c1 := mkConfig (MainReturned (Ok tt)) [] (printed s no_results_line) in
  step env c0 None = Some c1 ∧
  ∀ c, reachable env c0 c →
       (c = c0 ∨ c = c1) ∧ pool c = []
       ∧ files (world (shared c)) = files (world s)
       ∧ dirs (world (shared c)) = dirs (world s).
Proof.
  intros Hnet Hst Hj Hh. apply http_error_msg_None in Hst.
  assert (Hs : obtener_urls_imagenes env q n s = (Ok [], s)).
  { rewrite (obtener_json env q n s r _ Hnet Hst Hj). f_equal.
    unfold extraer. unfold_monad. simpl. unfold_monad. by rewrite Hh. }
  split; [done|].
  destruct (run_no_results env q n s s Hs) as [Hstep Hreach].
  split; [done|]. intros c Hc.
  destruct (Hreach c Hc) as [->| ->]; repeat split; auto.
Qed.

Lemma empty_hits_take_no_results_path_witness :
  let r := respuesta_api 200 (Some (PyDict [("total", PyInt 0); ("hits", PyList [])])) in
  let env := entorno (inr r) (inl (ConnectionError "")) in
  ¬ (400 <= status_code r < 600)%Z ∧
  obtener_urls_imagenes env "gatos" 3 s0 = (Ok [], s0) ∧
  step env (descargar_imagenes_concurrentes "gatos" 3 s0) None
  = Some (mkConfig (MainReturned (Ok tt)) [] (printed s0 no_results_line)).
Proof.
  intros r env.
  assert (Hst : ¬ (400 <= status_code r < 600)%Z) by (simpl; lia).
  split; [exact Hst|].
  destruct (empty_hits_take_no_results_path env "gatos" 3 s0 r
              [("total", PyInt 0); ("hits", PyList [])]
              eq_refl Hst eq_refl eq_refl) as (H1 & H2 & _).
  split; [exact H1|exact H2].
Defined.

(** X6.  What the search does with a body that decodes to something else
    than an object with a list of hits.  A body that is not an object, and
    hits that are [null], a boolean or a number, raise [TypeError]; so do
    hits that are a string or an object with something in it, since their
    elements are strings and cannot be subscripted by a name.  Hits that
    are the empty string or the empty object give the empty list, as an
    empty list of hits does.  Nothing is printed in any of these cases. *)
Theorem search_on_other_json_shapes env q n s r datos :
  net env (search_request (self s) q n) = inr r →
  ¬ (400 <= status_code r < 600)%Z →
  json_value r = Some datos →
  ((∀ items, datos ≠ PyDict items) →
   ∃ m, obtener_urls_imagenes env q n s = (Raise (TypeError m), s)) ∧
  (∀ items hits,
     datos = PyDict items → dict_get items "hits" = Some hits →
     (hits = PyNone ∨ (∃ b, hits = PyBool b) ∨ (∃ z, hits = PyInt z)
      ∨ (∃ x, hits = PyFloat x) →
      ∃ m, obtener_urls_imagenes env q n s = (Raise (TypeError m), s)) ∧
     ((∃ a t, hits = PyStr (String a t)) ∨ (∃ kv d, hits = PyDict (kv :: d)) →
      ∃ m, obtener_urls_imagenes env q n s = (Raise (TypeError m), s)) ∧
     (hits = PyStr "" ∨ hits = PyDict [] →
      obtener_urls_imagenes env q n s = (Ok [], s))).
Proof.
  intros Hnet Hst Hj. apply http_error_msg_None in Hst.
  rewrite (obtener_json env q n s r _ Hnet Hst Hj).
  unfold extraer. unfold_monad. split.
  - intros Hno. destruct datos as [| | | | | |items]; simpl; unfold_monad;
      eauto. by destruct (Hno items).
  - intros items hits -> Hh. simpl. unfold_monad. rewrite Hh.
    split; [|split].
    + intros [->|[[b ->]|[[z ->]|[x ->]]]]; simpl; eauto.
    + intros [(a & t & ->)|([k v] & d & ->)]; simpl; unfold_monad; simpl;
        eauto.
    + intros [->| ->]; done.
Qed.

Lemma search_on_other_json_shapes_witness :
  let r := respuesta_api 200 (Some (PyDict [("hits", PyStr "ninguno")])) in
  let env := entorno (inr r) (inl (ConnectionError "")) in
  ¬ (400 <= status_code r < 600)%Z ∧
  ∃ m, obtener_urls_imagenes env "gatos" 3 s0 = (Raise (TypeError m), s0).
Proof.
  intros r env.
  assert (Hst : ¬ (400 <= status_code r < 600)%Z) by (simpl; lia).
  split; [exact Hst|].
  destruct (search_on_other_json_shapes env "gatos" 3 s0 r _
              eq_refl Hst eq_refl) as (_ & H).
  destruct (H [("hits", PyStr "ninguno")] (PyStr "ninguno") eq_refl eq_refl)
    as (_ & H2 & _).
  apply H2. left. eauto.
Defined.

(** X7.  [descargar_imagen] joins the name to the directory with
    [os.path.join]: a name that starts with a separator is taken as it is,
    and so is every name when the directory is the empty string.  A fetch
    that succeeds then writes the body to that very path, outside the
    directory of the instance, and changes no other file. *)
Theorem fetch_to_absolute_name_ignores_directory env u f s r :
  startswith_sep f = true ∨ directorio_imagenes (self s) = "" →
  net env (fetch_request u) = inr r →
  ¬ (400 <= status_code r < 600)%Z →
  body_error r = None →
  open_fails env f = None →
  (∀ k, write_fails env f k = None) →
  os_path_join (directorio_imagenes (self s)) f = f ∧
  descargar_imagen env u f s
  = (Ok tt, printed (with_file s f (content r)) (fetch_ok_line f)) ∧
  ∀ p, p ≠ f →
       files (world (snd (descargar_imagen env u f s))) !! p
       = files (world s) !! p.
Proof.
  intros Habs Hnet Hst Hb Ho Hw.
  assert (Hjoin : os_path_join (directorio_imagenes (self s)) f = f).
  { unfold os_path_join. destruct Habs as [-> | ->]; [done|].
    by destruct (startswith_sep f). }
  split; [done|].
  pose proof (descargar_success env u f s r Hnet Hst Hb) as H.
  simpl in H. rewrite Hjoin in H. rewrite (H Ho Hw).
  split; [done|]. intros p Hp. simpl. by rewrite lookup_insert_ne.
Qed.

Lemma fetch_to_absolute_name_ignores_directory_witness :
  let r := respuesta_imagen 200 ["a"; "b"]%byte None in
  let env := entorno (inl (ConnectionError "")) (inr r) in
  startswith_sep "/tmp/x.jpg" = true ∧
  descargar_imagen env (PyStr "http://x/a.jpg") "/tmp/x.jpg" s0
  = (Ok tt, printed (with_file s0 "/tmp/x.jpg" ["a"; "b"]%byte)
              (fetch_ok_line "/tmp/x.jpg")).
Proof.
  intros r env. split; [reflexivity|].
  assert (Hst : ¬ (400 <= status_code r < 600)%Z) by (simpl; lia).
  destruct (fetch_to_absolute_name_ignores_directory env
              (PyStr "http://x/a.jpg") "/tmp/x.jpg" s0 r
              (or_introl eq_refl) eq_refl Hst eq_refl eq_refl
              (fun _ => eq_refl)) as (_ & H & _).
  exact H.
Defined.

(** ** What a fetch does to the disk *)

Section DiskOfAFetch.
Variable env : Environment.

Lemma write_chunks_files r ruta chunks :
  ∀ k s old,
    files (world s) !! ruta = Some old →
    files (world (snd (write_chunks env r ruta k chunks s)))
    = <[ruta := old ++ concat (take (written env ruta k chunks) chunks)]>
        (files (world s)).
Proof.
  induction chunks as [|c chunks IH]; intros k s old Hf.
  - simpl. unfold end_of_body. unfold_monad. rewrite app_nil_r.
    rewrite insert_id by done. by destruct (body_error r).
  - cbn [write_chunks written]. unfold_monad. unfold file_write.
    destruct (write_fails env ruta k) as [e|]; unfold_monad; simpl.
    + rewrite app_nil_r. by rewrite insert_id.
    + rewrite Hf. simpl.
      rewrite (IH (S k) _ (old ++ c)) by (simpl; by rewrite lookup_insert_eq).
      simpl. by rewrite insert_insert_eq, <- app_assoc.
Qed.

Lemma descargar_files u f s :
  files (world (snd (descargar_imagen env u f s)))
  = match fetch_writes env (self s) u f with
    | Some data =>
        <[os_path_join (directorio_imagenes (self s)) f := data]>
          (files (world s))
    | None => files (world s)
    end.
Proof.
  unfold fetch_writes.
  destruct (net env (fetch_request u)) as [e|r] eqn:Hnet.
  { by rewrite (descargar_net_error env u f s e Hnet). }
  destruct (http_error_msg r) as [m|] eqn:Hm.
  { by rewrite (descargar_http_error env u f s r m Hnet Hm). }
  simpl.
  destruct (open_fails env (os_path_join (directorio_imagenes (self s)) f))
    as [e|] eqn:Ho.
  { by rewrite (descargar_open_fails env u f s r e Hnet Hm Ho). }
  rewrite (descargar_after_open env u f s r Hnet Hm Ho).
  pose proof (write_chunks_files r
                (os_path_join (directorio_imagenes (self s)) f)
                (iter_content chunk_size (content r)) 0
                (with_file s (os_path_join (directorio_imagenes (self s)) f) [])
                [] ltac:(simpl; by rewrite lookup_insert_eq)) as H.
  simpl in H. rewrite insert_insert_eq in H.
  destruct (write_chunks _ _ _ _ _ _) as [[[]|e] s1]; simpl in *; [done|].
  by destruct (as_RequestException e).
Qed.

End DiskOfAFetch.


(** X9.  Calling [descargar_imagenes_concurrentes] again with the same
    keyword and count, on what the first call has left and with the
    network and the disk answering as before, leaves every file and
    directory as the first call left them, whatever the schedules of the
    two calls: the second call writes the same files again and makes no
    new one. *)
Theorem second_run_leaves_disk_as_first env q n s c1 r1 c2 r2 :
  reachable env (descargar_imagenes_concurrentes q n s) c1 →
  main c1 = MainReturned r1 →
  reachable env (descargar_imagenes_concurrentes q n (shared c1)) c2 →
  main c2 = MainReturned r2 →
  files (world (shared c2)) = files (world (shared c1))
  ∧ dirs (world (shared c2)) = dirs (world (shared c1)).
Proof.
  intros Hc1 Hm1 Hc2 Hm2.
  pose proof (reachable_self env _ _ Hc1) as Hself1. simpl in Hself1.
  destruct (FilesInv_reachable env q n s c1 Hc1) as (_ & _ & Hth1).
  destruct (FilesInv_reachable env q n (shared c1) c2 Hc2)
    as (Hd2 & Hother2 & Hth2).
  split; [|done].
  pose proof (Inv_reachable env q n s c1 Hc1) as HI1.
  pose proof (Inv_reachable env q n (shared c1) c2 Hc2) as HI2.
  unfold Inv in HI1, HI2. rewrite Hm1 in HI1. rewrite Hm2 in HI2.
  rewrite (obtener_result_self env q n (shared c1) s Hself1) in HI2.
  destruct HI2 as [[Hp2 _]|(urls & Hres & Hne & _ & Ha2 & Hfin2)].
  { apply map_eq. intros p. apply Hother2. rewrite Hp2. simpl. lia. }
  rewrite Hres in HI1.
  destruct HI1 as [[_ [-> _]]|(urls' & [= <-] & _ & _ & Ha1 & Hfin1)];
    [done|].
  apply map_eq. intros p.
  destruct (decide (p ∈ map (ruta_posicion (self (shared c1)))
                            (seq 0 (length (pool c2))))) as [Hin|Hnin].
  - apply list_elem_of_fmap in Hin as (j & -> & Hj).
    apply elem_of_seq in Hj.
    destruct (lookup_lt_is_Some_2 (pool c2) j ltac:(lia)) as [t2 Ht2].
    assert (Hlen : length (pool c1) = length (pool c2)).
    { apply (f_equal length) in Ha1, Ha2.
      rewrite length_map in Ha1, Ha2. congruence. }
    destruct (lookup_lt_is_Some_2 (pool c1) j ltac:(lia)) as [t1 Ht1].
    assert (args t1 = args t2) as Hargs.
    { assert (map args (pool c1) !! j = map args (pool c2) !! j) as H
        by congruence.
      rewrite !list_lookup_fmap, Ht1, Ht2 in H. simpl in H. unfold args in *. congruence. }
    unfold args in Hargs. injection Hargs as Hu Hn.
    destruct (Hth1 j t1 Ht1) as (_ & _ & Ha).
    destruct (Hth2 j t2 Ht2) as (Hname2 & _ & Hb).
    rewrite Forall_lookup in Hfin1, Hfin2.
    rewrite (alone_file_finished env _ t1 _ (Hfin1 j t1 Ht1)) in Ha.
    rewrite (alone_file_finished env _ t2 _ (Hfin2 j t2 Ht2)) in Hb.
    unfold ruta_de, ruta_posicion in *.
    destruct t1 as [u1 f1 pc1], t2 as [u2 f2 pc2]. simpl in *. subst u1 f1 f2.
    rewrite Hb, (descargar_files env u2 (nombre_archivo j) (shared c1)).
    rewrite Hself1.
    rewrite (descargar_files env u2 (nombre_archivo j) s) in Ha.
    destruct (fetch_writes env (self s) u2 (nombre_archivo j)).
    + rewrite lookup_insert_eq in Ha |- *. by rewrite Ha.
    + done.
  - apply Hother2. intros j Hj ->. apply Hnin.
    apply list_elem_of_fmap. exists j. split; [done|]. apply elem_of_seq. lia.
Qed.

Lemma second_run_leaves_disk_as_first_witness :
  let c1 := run_schedule entorno_dos horario_alterno
              (descargar_imagenes_concurrentes "perros" 2 s0) in
  let c2 := run_schedule entorno_dos horario_en_orden
              (descargar_imagenes_concurrentes "perros" 2 (shared c1)) in
  main c1 = MainReturned (Ok tt) ∧ main c2 = MainReturned (Ok tt) ∧
  files (world (shared c2)) = files (world (shared c1)).
Proof.
  intros c1 c2.
  assert (H1 : main c1 = MainReturned (Ok tt)) by (vm_compute; reflexivity).
  assert (H2 : main c2 = MainReturned (Ok tt)) by (vm_compute; reflexivity).
  split; [exact H1|]. split; [exact H2|].
  apply (second_run_leaves_disk_as_first entorno_dos "perros" 2 s0
           c1 (Ok tt) c2 (Ok tt)); [|exact H1| |exact H2];
    apply run_schedule_reachable.
Defined.

Section FailedConstruction.
Variable env : Environment.

#[local] Set Warnings "-clear-no-such-hyp".

Lemma mkdir_missing_raise p q s e s' :
  mkdir_missing env p q s = (Raise e, s') →
  s' = s ∧ (∃ oe x, e = OSError oe x) ∧ (p ∉ dirs (world s))
  ∧ (is_Some (files (world s) !! p) ∨ is_Some (mkdir_fails env p)).
Proof.
  unfold mkdir_missing. unfold_monad.
  destruct (decide (p ∈ dirs (world s))) as [Hp|Hp]; [done|].
  destruct (decide (is_Some (files (world s) !! p))) as [Hf|Hf].
  { destruct q; intros [= <- <-]; eauto 10. }
  destruct (mkdir_fails env p) as [oe|] eqn:Hm; [|done].
  intros [= <- <-]. eauto 10.
Qed.

Lemma mkdir_each_raise chain :
  ∀ s e s',
    mkdir_each env chain s = (Raise e, s') →
    (∃ oe x, e = OSError oe x)
    ∧ self s' = self s ∧ files (world s') = files (world s)
    ∧ stdout (world s') = stdout (world s)
    ∧ dirs (world s) ⊆ dirs (world s')
    ∧ dirs (world s') ⊆ list_to_set chain ∪ dirs (world s)
    ∧ ∃ p, p ∈ chain ∧ (p ∉ dirs (world s))
           ∧ (is_Some (files (world s) !! p) ∨ is_Some (mkdir_fails env p)).
Proof.
  induction chain as [|p chain IH]; intros s e s'; simpl; unfold_monad; [done|].
  destruct (mkdir_missing env p (head chain) s) as [[[]|e1] s1] eqn:E1.
  - intros H. apply IH in H as (He & Hs & Hf & Ho & Hsub & Hsup & p' & Hin & Hnd & Hwhy).
    apply mkdir_missing_ok in E1 as (Hs1 & Hf1 & Ho1 & Hd1).
    split; [done|]. repeat split; try congruence.
    + rewrite Hd1 in Hsub. set_solver.
    + rewrite Hd1 in Hsup. set_solver.
    + exists p'. split; [by right|]. split; [rewrite Hd1 in Hnd; set_solver|].
      by rewrite <- Hf1.
  - intros [= <- <-]. apply mkdir_missing_raise in E1 as (-> & He & Hnd & Hwhy).
    split; [done|]. repeat split; try done; [set_solver|].
    exists p. split; [by left|done].
Qed.

End FailedConstruction.

(** X10.  A construction that fails has printed nothing and has changed
    no file; it has removed no directory, and the only directories it can
    have added are those of the chain of the path it was given: the
    directories made before the failure stay, the failure is not undone.
    With the empty string for a directory the construction always fails,
    with [FileNotFoundError], and leaves everything as it was. *)
Theorem failed_construction env k d w :
  (∀ e w',
     __init__ env k d w = (Raise e, w') →
     files w' = files w ∧ stdout w' = stdout w ∧
     dirs w ⊆ dirs w' ∧ dirs w' ⊆ list_to_set (path_chain d) ∪ dirs w) ∧
  (d = "" →
   __init__ env k d w = (Raise (OSError FileNotFoundError ""), w)).
Proof.
  split.
  - intros e w'. unfold __init__, makedirs_exist_ok.
    destruct (String.eqb_spec d "") as [->|Hd].
    { unfold_monad. intros [= <- <-].
      repeat split; try done. apply union_subseteq_r. }
    destruct (mkdir_each env (path_chain d) _) as [[[]|e1] s1] eqn:E; [done|].
    intros [= <- <-].
    apply mkdir_each_raise in E as (_ & _ & Hf & Ho & Hsub & Hsup & _).
    simpl in *. done.
  - intros ->. reflexivity.
Qed.

Lemma failed_construction_witness :
  let w' := mkWorld ∅ {["salida"]} [] in
  __init__ entorno_sin_subdirectorio "K" "salida/fotos" mundo0
  = (Raise (OSError PermissionError "salida/fotos"), w') ∧
  files w' = files mundo0 ∧ stdout w' = stdout mundo0 ∧
  dirs mundo0 ⊆ dirs w' ∧
  dirs w' ⊆ list_to_set (path_chain "salida/fotos") ∪ dirs mundo0.
Proof.
  intros w'.
  assert (H : __init__ entorno_sin_subdirectorio "K" "salida/fotos" mundo0
              = (Raise (OSError PermissionError "salida/fotos"), w'))
    by (vm_compute; reflexivity).
  split; [exact H|].
  destruct (failed_construction entorno_sin_subdirectorio "K" "salida/fotos"
              mundo0) as (Hfail & _).
  exact (Hfail _ w' H).
Defined.

(** ** What the search leaves behind *)

(** X11.  The search writes no file and makes no directory.  Either it
    leaves the state as it was, which is so whenever it returns addresses
    or lets an exception out, or it has caught a request exception: then
    it has printed the one diagnostic line of line 79 and returns the
    empty list. *)
Theorem search_touches_only_the_screen env q n s :
  let res := obtener_urls_imagenes env q n s in
  (snd res = s ∨ ∃ e, res = (Ok [], printed s (search_diagnostic e))) ∧
  (∀ u urls, fst res = Ok (u :: urls) → snd res = s) ∧
  (∀ e, fst res = Raise e → snd res = s) ∧
  files (world (snd res)) = files (world s) ∧
  dirs (world (snd res)) = dirs (world s) ∧
  self (snd res) = self s.
Proof.
  intros res.
  assert (H : snd res = s ∨ ∃ e, res = (Ok [], printed s (search_diagnostic e))).
  { subst res.
    destruct (net env (search_request (self s) q n)) as [e|r] eqn:Hnet.
    { right. exists e. apply obtener_net_error, Hnet. }
    destruct (http_error_msg r) as [m|] eqn:Hm.
    { right. exists (HTTPError m). by apply (obtener_http_error env q n s r). }
    destruct (json_value r) as [datos|] eqn:Hj.
    - left. by rewrite (obtener_json env q n s r datos Hnet Hm Hj).
    - right. destruct (obtener_not_json env q n s r Hnet Hm Hj) as [m ->].
      eauto. }
  split; [exact H|].
  repeat split.
  - intros u urls Hr. destruct H as [H|[e H]]; [done|]. by rewrite H in Hr.
  - intros e Hr. destruct H as [H|[e' H]]; [done|]. by rewrite H in Hr.
  - destruct H as [->|[e ->]]; done.
  - destruct H as [->|[e ->]]; done.
  - destruct H as [->|[e ->]]; done.
Qed.
